(** * The resource-lock manager of include/ibm/locks.hpp

    A shallow embedding of [crow::ibm_mc_lock::lock]: request validation,
    the pairwise conflict check, the lock table, ownership verification
    and the transaction-id counter, followed by the properties of the
    Acquire / Release interface.

    Conventions of the embedding.
    - [uint32_t] and [uint64_t] values are numbers in [N]; the one place
      where the code does arithmetic on them, [++transactionID], has its
      32-bit wrap-around written out.
    - [std::string] is [string]; [boost::equals] is [String.eqb].
    - [std::vector] is [list]; [size()] is the list's length (the casts
      of a size to [int] and the [uint32_t] loop counters of the source
      are exact for vectors of fewer than 2^31 elements).
    - [std::map<uint32_t, lockrequests>] is a [gmap N lockrequests],
      iterated in ascending key order.
    - Behaviour the C++ standard leaves undefined (indexing a vector or
      the eight bytes of a resource id out of range) is the result
      [None]; every function that can reach it returns an [option]. *)

From Stdlib Require Import NArith ZArith Lia.
From stdpp Require Import base gmap strings list sorting.

(** ** Data model *)

(** [using stype = std::string]. *)
Abbreviation stype := string (only parsing).

(** [using segmentflags = std::vector<std::pair<stype, uint32_t>>]:
    lock flag and segment length. *)
Abbreviation segmentflags := (list (stype * N)) (only parsing).

(** [using lockrequest =
      std::tuple<stype, stype, stype, uint64_t, segmentflags>]:
    session-id | hmc-id | locktype | resourceid | segmentinfo.  The
    fields are [std::get<0>] to [std::get<4>], in this order. *)
Record lockrequest : Type := mklockrequest {
  sessionid : stype;
  hmcid : stype;
  locktype : stype;
  resourceid : N;
  segmentinfo : segmentflags
}.

#[global] Instance lockrequest_eq_dec : EqDecision lockrequest.
Proof. solve_decision. Defined.

(** The value-initialised tuple [lockrequest()]. *)
Definition lockrequest_default : lockrequest :=
  mklockrequest "" "" "" 0%N [].

Abbreviation lockrequests := (list lockrequest) (only parsing).

(** [using rc = std::pair<bool,
      std::variant<uint32_t, std::pair<uint32_t, lockrequest>>>]. *)
Definition rc : Type := bool * (N + N * lockrequest).

(** [using rcrelaselock = std::pair<bool, std::pair<uint32_t, lockrequest>>]. *)
Definition rcrelaselock : Type := bool * (N * lockrequest).

Abbreviation listoftransactionIDs := (list N) (only parsing).

(** [using rcacquirelock =
      std::pair<bool, std::variant<rc, std::pair<bool, int>>>]. *)
Definition rcacquirelock : Type := bool * (rc + bool * Z).

(** [using rcreleaselockapi =
      std::pair<bool, std::variant<bool, rcrelaselock>>]. *)
Definition rcreleaselockapi : Type := bool * (bool + rcrelaselock).

(** The private members of [class lock]. *)
Record lock : Type := mklock {
  transactionID : N;
  locktable : gmap N lockrequests
}.

(** The constructor [lock() { transactionID = 0; }]. *)
Definition newlock : lock := mklock 0%N ∅.

(** *** The interface results, as the specification names them *)

Definition Granted (id : N) : rcacquirelock := (false, inl (false, inl id)).
Definition InvalidRequest : rcacquirelock := (true, inr (false, 0%Z)).
Definition SelfConflict : rcacquirelock := (true, inr (true, 1%Z)).
Definition TableConflict (id : N) (q : lockrequest) : rcacquirelock :=
  (false, inl (true, inr (id, q))).

Definition Released : rcreleaselockapi :=
  (true, inr (true, (0%N, lockrequest_default))).
Definition InvalidTransactionId : rcreleaselockapi := (false, inl false).
Definition NotOwner (id : N) (q : lockrequest) : rcreleaselockapi :=
  (true, inr (false, (id, q))).

(** Acquire was rejected: one of the three rejections of the interface. *)
Definition acquire_rejected (r : rcacquirelock) : Prop :=
  r = InvalidRequest ∨ r = SelfConflict ∨ ∃ id q, r = TableConflict id q.

(** Release was rejected. *)
Definition release_rejected (r : rcreleaselockapi) : Prop :=
  r = InvalidTransactionId ∨ ∃ id q, r = NotOwner id q.

(** ** The std::map operations the class uses *)

(** Entries are visited in ascending key order. *)
Definition keyle (a b : N * lockrequests) : Prop := (a.1 ≤ b.1)%N.

#[global] Instance keyle_dec a b : Decision (keyle a b) :=
  decide (a.1 ≤ b.1)%N.

Definition entries (m : gmap N lockrequests) : list (N * lockrequests) :=
  merge_sort keyle (map_to_list m).

(** [locktable.emplace(std::make_pair(id, v))]: no effect when the key is
    already present. *)
Definition emplace (id : N) (v : lockrequests) (m : gmap N lockrequests)
  : gmap N lockrequests :=
  match m !! id with
  | Some _ => m
  | None => <[id := v]> m
  end.

(** ** Request validation *)

Definition islockall (s : stype) : bool := String.eqb s "LockAll".
Definition islocksame (s : stype) : bool := String.eqb s "LockSame".
Definition isdontlock (s : stype) : bool := String.eqb s "DontLock".

(** The loop of [isvalidlockrequest] over the segments; [lockflag] is the
    running count of LockSame / LockAll flags. *)
Fixpoint validsegments (segs : segmentflags) (lockflag : Z) : bool :=
  match segs with
  | [] => true
  | p :: rest =>
      if negb (islocksame p.1 || islockall p.1 || isdontlock p.1) then false
      else if (p.2 <? 1)%N || (4 <? p.2)%N then false
      else if islocksame p.1 || islockall p.1 then
        let lockflag := (lockflag + 1)%Z in
        if (2 <=? lockflag)%Z then false else validsegments rest lockflag
      else validsegments rest lockflag
  end.

Definition isvalidlockrequest (reflockrecord : lockrequest) : bool :=
  if negb (String.eqb (locktype reflockrecord) "Read"
           || String.eqb (locktype reflockrecord) "Write") then false
  else if (6 <? length (segmentinfo reflockrecord))%nat
          || (length (segmentinfo reflockrecord) <? 2)%nat then false
  else validsegments (segmentinfo reflockrecord) 0.

(** ** Ownership, validation of ids, release *)

(** [locktable[id][0]] is undefined when the batch stored under [id] is
    empty (and [operator[]] would create exactly such an entry for an
    absent [id]). *)
Fixpoint isitmylock (refrids : listoftransactionIDs) (ids : stype * stype)
    (table : gmap N lockrequests) : option rcrelaselock :=
  match refrids with
  | [] => Some (true, (0%N, lockrequest_default))
  | id :: rest =>
      match table !! id with
      | Some (first :: _) =>
          let expectedclientid := hmcid first in
          let expectedsessionid := sessionid first in
          if String.eqb expectedclientid ids.1
             && String.eqb expectedsessionid ids.2
          then isitmylock rest ids table
          else Some (false, (id, first))
      | _ => None
      end
  end.

Fixpoint validaterids (refrids : listoftransactionIDs)
    (table : gmap N lockrequests) : bool :=
  match refrids with
  | [] => true
  | id :: rest =>
      match table !! id with
      | Some _ => validaterids rest table
      | None => false
      end
  end.

Fixpoint releaselock (refrids : listoftransactionIDs)
    (table : gmap N lockrequests) : gmap N lockrequests :=
  match refrids with
  | [] => table
  | id :: rest => releaselock rest (delete id table)
  end.

Definition Releaselock (p : listoftransactionIDs) (ids : stype * stype)
    (st : lock) : option (rcreleaselockapi * lock) :=
  let status := validaterids p (locktable st) in
  if negb status then Some ((false, inl status), st)
  else
    match isitmylock p (ids.1, ids.2) (locktable st) with
    | None => None
    | Some status =>
        Some ((true, inr status),
              if status.1
              then mklock (transactionID st) (releaselock p (locktable st))
              else st)
    end.

(** ** The transaction-id counter *)

(** [++transactionID; return transactionID;] on a [uint32_t]. *)
Definition generateTransactionID (st : lock) : N * lock :=
  let t := ((transactionID st + 1) mod 2 ^ 32)%N in
  (t, mklock t (locktable st)).

(** ** Conflict detection *)

(** The order in which the eight bytes of a [uint64_t] lie in memory. *)
Inductive byteorder : Type := LittleEndian | BigEndian.

Section Conflict.

Variable order : byteorder.

(** [reinterpret_cast<uint8_t *>(&resourceid)[j]]; there is no byte at
    [j >= 8]. *)
Definition resourcebyte (resourceid : N) (j : N) : option N :=
  if (j <? 8)%N then
    let k := match order with
             | LittleEndian => j
             | BigEndian => (7 - j)%N
             end in
    Some (N.land (N.shiftr resourceid (8 * k)) 255)
  else None.

Definition checkbyte (resourceid1 resourceid2 : N) (j : N) : option bool :=
  match resourcebyte resourceid1 j, resourcebyte resourceid2 j with
  | Some p, Some q => Some (if (p =? q)%N then true else false)
  | _, _ => None
  end.

(** The inner loop [for (uint32_t i = 0; i < p.second; i++)] of
    [isconflictrecord], started at offset [j] with [n] iterations left:
    [Some false] when it executes [return false], [Some true] when it runs
    to its end. *)
Fixpoint comparebytes (resourceid1 resourceid2 : N) (j : N) (n : nat)
  : option bool :=
  match n with
  | O => Some true
  | S n' =>
      match checkbyte resourceid1 resourceid2 j with
      | None => None
      | Some false => Some false
      | Some true => comparebytes resourceid1 resourceid2 (j + 1)%N n'
      end
  end.

(** The loop of [isconflictrecord] over the segments of the first record:
    [segs1] is what is left of them, [i] the index used into the second
    record's segments [segs2].  [segs2[i]] is first read by the right
    operand of the LockAll test. *)
Fixpoint segmentloop (resourceid1 resourceid2 : N)
    (segs1 segs2 : segmentflags) (i : nat) : option bool :=
  match segs1 with
  | [] => Some false
  | p :: rest =>
      if islockall p.1 then Some true
      else
        match segs2 !! i with
        | None => None
        | Some q =>
            if islockall q.1 then Some true
            else if (islocksame p.1 || islocksame q.1) && (p.2 =? q.2)%N
            then Some true
            else if negb (p.2 =? q.2)%N then Some false
            else
              match comparebytes resourceid1 resourceid2 0 (N.to_nat p.2) with
              | None => None
              | Some false => Some false
              | Some true =>
                  segmentloop resourceid1 resourceid2 rest segs2 (S i)
              end
        end
  end.

Definition isconflictrecord (reflockrecord1 reflockrecord2 : lockrequest)
  : option bool :=
  if String.eqb (locktype reflockrecord1) "Read"
     && String.eqb (locktype reflockrecord2) "Read"
  then Some false
  else segmentloop (resourceid reflockrecord1) (resourceid reflockrecord2)
         (segmentinfo reflockrecord1) (segmentinfo reflockrecord2) 0.

(** The loop over [j] of [isconflictrequest]: [p] against the records
    after it. *)
Fixpoint conflictwithlater (p : lockrequest) (later : lockrequests)
  : option bool :=
  match later with
  | [] => Some false
  | q :: rest =>
      match isconflictrecord p q with
      | None => None
      | Some true => Some true
      | Some false => conflictwithlater p rest
      end
  end.

(** The loop over [i] of [isconflictrequest]. *)
Fixpoint conflictpairs (reqs : lockrequests) : option bool :=
  match reqs with
  | [] => Some false
  | p :: later =>
      match conflictwithlater p later with
      | None => None
      | Some true => Some true
      | Some false => conflictpairs later
      end
  end.

Definition isconflictrequest (reflockrequeststructure : lockrequests)
  : option bool :=
  if (length reflockrequeststructure =? 1)%nat then Some false
  else conflictpairs reflockrequeststructure.

(** The three nested loops of [isconflictwithtable], innermost first;
    [Some (Some (id, q))] is the early return with the conflicting
    entry. *)
Fixpoint scanbatch (p : lockrequest) (id : N) (batch : lockrequests)
  : option (option (N * lockrequest)) :=
  match batch with
  | [] => Some None
  | q :: rest =>
      match isconflictrecord p q with
      | None => None
      | Some true => Some (Some (id, q))
      | Some false => scanbatch p id rest
      end
  end.

Fixpoint scanentries (p : lockrequest) (es : list (N * lockrequests))
  : option (option (N * lockrequest)) :=
  match es with
  | [] => Some None
  | map :: rest =>
      match scanbatch p map.1 map.2 with
      | None => None
      | Some (Some hit) => Some (Some hit)
      | Some None => scanentries p rest
      end
  end.

Fixpoint scantable (reqs : lockrequests) (es : list (N * lockrequests))
  : option (option (N * lockrequest)) :=
  match reqs with
  | [] => Some None
  | lockrecord1 :: rest =>
      match scanentries lockrecord1 es with
      | None => None
      | Some (Some hit) => Some (Some hit)
      | Some None => scantable rest es
      end
  end.

Definition isconflictwithtable (reflockrequeststructure : lockrequests)
    (st : lock) : option (rc * lock) :=
  if decide (locktable st = ∅) then
    let '(id, st1) := generateTransactionID st in
    Some ((false, inl id),
          mklock (transactionID st1)
                 (emplace id reflockrequeststructure (locktable st1)))
  else
    match scantable reflockrequeststructure (entries (locktable st)) with
    | None => None
    | Some (Some (id, q)) => Some ((true, inr (id, q)), st)
    | Some None =>
        let '(id, st1) := generateTransactionID st in
        Some ((false, inl id),
              mklock (transactionID st1)
                     (emplace id reflockrequeststructure (locktable st1)))
    end.

(** ** Acquire *)

Definition Acquirelock (lockrequeststructure : lockrequests) (st : lock)
  : option (rcacquirelock * lock) :=
  if negb (forallb isvalidlockrequest lockrequeststructure)
  then Some ((true, inr (false, 0%Z)), st)
  else
    match isconflictrequest lockrequeststructure with
    | None => None
    | Some true => Some ((true, inr (true, 1%Z)), st)
    | Some false =>
        match isconflictwithtable lockrequeststructure st with
        | None => None
        | Some (conflict, st') => Some ((false, inl conflict), st')
        end
    end.

End Conflict.

(** ** Vocabulary of the properties *)

(** A pair of aligned segments at which the loop body reaches its end:
    no LockAll, no LockSame, equal lengths, and the bytes at offsets
    [0 .. length-1] of the two resource ids agree. *)
Definition indecisive (order : byteorder) (r1 r2 : N)
    (p q : stype * N) : Prop :=
  p.1 ≠ "LockAll"%string ∧ q.1 ≠ "LockAll"%string ∧
  p.1 ≠ "LockSame"%string ∧ q.1 ≠ "LockSame"%string ∧
  p.2 = q.2 ∧ (p.2 ≤ 8)%N ∧
  ∀ k, (k < p.2)%N → resourcebyte order r1 k = resourcebyte order r2 k.

(** A segment with one of the three lock flags and a length from 1 to 4. *)
Definition legalsegment (p : stype * N) : Prop :=
  (p.1 = "LockSame"%string ∨ p.1 = "LockAll"%string
   ∨ p.1 = "DontLock"%string)
  ∧ (1 ≤ p.2 ≤ 4)%N.

(** A segment that counts towards the LockSame / LockAll limit. *)
Definition carrieslock (p : stype * N) : Prop :=
  p.1 = "LockSame"%string ∨ p.1 = "LockAll"%string.

#[global] Instance carrieslock_dec p : Decision (carrieslock p).
Proof. unfold carrieslock. apply _. Defined.

(** ** Sequences of calls *)

(** A call of the public interface and what it returned. *)
Inductive request : Type :=
  | Acquire (lockrequeststructure : lockrequests)
  | Release (p : listoftransactionIDs) (ids : stype * stype).

Inductive response : Type :=
  | Acquired (r : rcacquirelock)
  | Releaseresult (r : rcreleaselockapi).

Definition serve (order : byteorder) (o : request) (st : lock)
  : option (response * lock) :=
  match o with
  | Acquire reqs =>
      match Acquirelock order reqs st with
      | Some (r, st') => Some (Acquired r, st')
      | None => None
      end
  | Release p ids =>
      match Releaselock p ids st with
      | Some (r, st') => Some (Releaseresult r, st')
      | None => None
      end
  end.

(** The responses to a sequence of calls, up to the first call (if any)
    whose behaviour is undefined. *)
Fixpoint run (order : byteorder) (ops : list request) (st : lock)
  : list response :=
  match ops with
  | [] => []
  | o :: rest =>
      match serve order o st with
      | None => []
      | Some (r, st') => r :: run order rest st'
      end
  end.

(** The transaction id a response grants, if it is a grant. *)
Definition grantedid (r : response) : option N :=
  match r with
  | Acquired (false, inl (false, inl id)) => Some id
  | _ => None
  end.

(** The transaction ids issued by the successful Acquires, in order. *)
Definition issued (rs : list response) : list N := omap grantedid rs.

(** ** Sample requests *)

(** A Write request with two DontLock segments of length 2. *)
Definition dontlock22 : lockrequest :=
  mklockrequest "session" "console" "Write" 258
    [("DontLock"%string, 2%N); ("DontLock"%string, 2%N)].

(** The same lock asked for by another session of another console. *)
Definition dontlock22_other : lockrequest :=
  mklockrequest "session2" "console2" "Write" 258
    [("DontLock"%string, 2%N); ("DontLock"%string, 2%N)].

(** LockAll in front of a segment whose length differs from its peer's. *)
Definition lockall_first : lockrequest :=
  mklockrequest "session" "console" "Write" 0
    [("LockAll"%string, 1%N); ("DontLock"%string, 1%N)].

Definition longer_second_segment : lockrequest :=
  mklockrequest "session" "console" "Write" 0
    [("DontLock"%string, 1%N); ("DontLock"%string, 2%N)].

(** Three and two DontLock segments of length 1 on the same resource. *)
Definition three_segments : lockrequest :=
  mklockrequest "session" "console" "Write" 0
    [("DontLock"%string, 1%N); ("DontLock"%string, 1%N);
     ("DontLock"%string, 1%N)].

Definition two_segments : lockrequest :=
  mklockrequest "session" "console" "Write" 0
    [("DontLock"%string, 1%N); ("DontLock"%string, 1%N)].

(** Resource ids 0 and 256 agree on their byte at offset 0 and differ at
    offset 1 (in little-endian order). *)
Definition lockall_third : lockrequest :=
  mklockrequest "session" "console" "Write" 0
    [("DontLock"%string, 1%N); ("DontLock"%string, 1%N);
     ("LockAll"%string, 1%N)].

Definition dontlock_third_256 : lockrequest :=
  mklockrequest "session" "console" "Write" 256
    [("DontLock"%string, 1%N); ("DontLock"%string, 1%N);
     ("DontLock"%string, 1%N)].

(** A flag that is none of the three lock flags. *)
Definition unknown_flag : lockrequest :=
  mklockrequest "session" "console" "Write" 0
    [("Bogus"%string, 1%N); ("DontLock"%string, 1%N)].

(** A Write request that locks everything under its first segment. *)
Definition lockall_write : lockrequest :=
  mklockrequest "session" "console" "Write" 258
    [("LockAll"%string, 2%N); ("DontLock"%string, 2%N)].

(** The state after [lockall_write] was granted to a fresh lock object. *)
Definition lockall_held : lock := mklock 1%N {[1%N := [lockall_write]]}.

(** ** Further vocabulary *)

(** Byte [j] of a 64-bit resource id as it lies in memory, written with
    division and remainder instead of the pointer cast of [checkbyte]:
    counted from the least significant byte in little-endian order, from
    the most significant one in big-endian order. *)
Definition idbyte (order : byteorder) (resourceid : N) (j : N) : N :=
  match order with
  | LittleEndian => (resourceid / 256 ^ j) mod 256
  | BigEndian => (resourceid / 256 ^ (7 - j)) mod 256
  end.

(** A pair of aligned segments that decides nothing: no LockAll, no
    LockSame, equal lengths of at most eight, and the resource ids [r1]
    and [r2] have the same bytes at offsets [0 .. length-1]. *)
Definition fallsthrough (order : byteorder) (r1 r2 : N)
    (p q : stype * N) : Prop :=
  p.1 ≠ "LockAll"%string ∧ q.1 ≠ "LockAll"%string ∧
  p.1 ≠ "LockSame"%string ∧ q.1 ≠ "LockSame"%string ∧
  p.2 = q.2 ∧ (p.2 ≤ 8)%N ∧
  ∀ k, (k < p.2)%N → idbyte order r1 k = idbyte order r2 k.

(** Resource ids 0 and 256 have the same byte at offset 0 and different
    bytes at offset 1 (in little-endian order); the second segment is two
    bytes long and a LockAll follows it. *)
Definition two_bytes_then_lockall : lockrequest :=
  mklockrequest "session" "console" "Write" 0
    [("DontLock"%string, 1%N); ("DontLock"%string, 2%N);
     ("LockAll"%string, 1%N)].

Definition two_bytes_256 : lockrequest :=
  mklockrequest "session" "console" "Write" 256
    [("DontLock"%string, 1%N); ("DontLock"%string, 2%N);
     ("DontLock"%string, 1%N)].

(** The identity [ids] (console id, session id) is the one on the first
    record of the batch stored under [id]. *)
Definition owns (ids : stype * stype) (table : gmap N lockrequests)
    (id : N) : Prop :=
  ∃ first rest,
    table !! id = Some (first :: rest)
    ∧ hmcid first = ids.1 ∧ sessionid first = ids.2.

(** The record [p] is found not to conflict with any record of [batch]. *)
Definition compatible (order : byteorder) (p : lockrequest)
    (batch : lockrequests) : Prop :=
  Forall (λ q : lockrequest, isconflictrecord order p q = Some false) batch.

(** The request [a] asked for the resource id [r] instead. *)
Definition withresourceid (a : lockrequest) (r : N) : lockrequest :=
  mklockrequest (sessionid a) (hmcid a) (locktype a) r (segmentinfo a).

(** The state after a sequence of calls, up to the first call (if any)
    whose behaviour is undefined. *)
Fixpoint finalstate (order : byteorder) (ops : list request) (st : lock)
  : lock :=
  match ops with
  | [] => st
  | o :: rest =>
      match serve order o st with
      | None => st
      | Some (_, st') => finalstate order rest st'
      end
  end.

(** A Read request with a LockAll segment, and a table that holds it. *)
Definition read_lockall : lockrequest :=
  mklockrequest "session" "console" "Read" 258
    [("LockAll"%string, 2%N); ("DontLock"%string, 2%N)].

Definition read_held : lock := mklock 1%N {[1%N := [read_lockall]]}.

(** A counter that has wrapped to 0 while id 1 is still held. *)
Definition wrapped_held : lock := mklock 0%N {[1%N := [read_lockall]]}.

(** Two batches held by two consoles, under ids 1 and 2. *)
Definition two_held : lock :=
  mklock 2%N (<[2%N := [dontlock22_other]]> {[1%N := [lockall_write]]}).

(** * Properties *)

Open Scope N_scope.

Implicit Types (order : byteorder) (p q : stype * N) (a b : lockrequest).

(** ** Flags *)

Lemma islockall_false s : islockall s = false ↔ s ≠ "LockAll"%string.
Proof. apply String.eqb_neq. Qed.

Lemma islocksame_false s : islocksame s = false ↔ s ≠ "LockSame"%string.
Proof. apply String.eqb_neq. Qed.

(** ** The byte comparison *)

Lemma resourcebyte_is_Some order r j : j < 8 → is_Some (resourcebyte order r j).
Proof.
  intros Hj. unfold resourcebyte.
  apply N.ltb_lt in Hj. rewrite Hj. eauto.
Qed.

Lemma checkbyte_true order r1 r2 j :
  checkbyte order r1 r2 j = Some true →
  resourcebyte order r1 j = resourcebyte order r2 j.
Proof.
  unfold checkbyte.
  destruct (resourcebyte order r1 j) as [x|], (resourcebyte order r2 j) as [y|];
    try discriminate.
  destruct (N.eqb_spec x y); [congruence | discriminate].
Qed.

Lemma checkbyte_false order r1 r2 j :
  checkbyte order r1 r2 j = Some false →
  resourcebyte order r1 j ≠ resourcebyte order r2 j.
Proof.
  unfold checkbyte.
  destruct (resourcebyte order r1 j) as [x|], (resourcebyte order r2 j) as [y|];
    try discriminate.
  destruct (N.eqb_spec x y); [discriminate | congruence].
Qed.

Lemma checkbyte_is_Some order r1 r2 j :
  j < 8 → is_Some (checkbyte order r1 r2 j).
Proof.
  intros Hj. unfold checkbyte.
  destruct (resourcebyte_is_Some order r1 j Hj) as [x ->].
  destruct (resourcebyte_is_Some order r2 j Hj) as [y ->].
  eauto.
Qed.

(** Within the eight bytes the loop always finishes with a verdict. *)
Lemma comparebytes_is_Some order r1 r2 n : ∀ j,
  j + N.of_nat n ≤ 8 → is_Some (comparebytes order r1 r2 j n).
Proof.
  induction n as [|n IH]; intros j Hj; simpl; [eauto|].
  destruct (checkbyte_is_Some order r1 r2 j) as [[|] ->]; [lia| |eauto].
  apply IH. lia.
Qed.

(** It runs to its end only when every byte it looked at agrees. *)
Lemma comparebytes_true order r1 r2 n : ∀ j,
  comparebytes order r1 r2 j n = Some true →
  ∀ k, j ≤ k < j + N.of_nat n →
       resourcebyte order r1 k = resourcebyte order r2 k.
Proof.
  induction n as [|n IH]; intros j Hc k Hk; simpl in Hc; [lia|].
  destruct (checkbyte order r1 r2 j) as [[|]|] eqn:Hb; try discriminate.
  destruct (decide (k = j)) as [->|Hne].
  - by apply checkbyte_true.
  - apply (IH (j + 1)); [done | lia].
Qed.

(** It returns false only at a byte that differs. *)
Lemma comparebytes_false order r1 r2 n : ∀ j,
  comparebytes order r1 r2 j n = Some false →
  ∃ k, j ≤ k < j + N.of_nat n ∧
       resourcebyte order r1 k ≠ resourcebyte order r2 k.
Proof.
  induction n as [|n IH]; intros j Hc; simpl in Hc; [discriminate|].
  destruct (checkbyte order r1 r2 j) as [[|]|] eqn:Hb; try discriminate.
  - destruct (IH _ Hc) as (k & Hk & Hne). exists k. split; [lia | done].
  - exists j. split; [lia | by apply checkbyte_false].
Qed.

Lemma comparebytes_agree order r1 r2 len :
  len ≤ 8 →
  (∀ k, k < len → resourcebyte order r1 k = resourcebyte order r2 k) →
  comparebytes order r1 r2 0 (N.to_nat len) = Some true.
Proof.
  intros Hlen Heq.
  destruct (comparebytes_is_Some order r1 r2 (N.to_nat len) 0) as [[|] Hc];
    [lia | done |].
  destruct (comparebytes_false _ _ _ _ _ Hc) as (k & Hk & Hne).
  destruct Hne. apply Heq. lia.
Qed.

Lemma comparebytes_differ order r1 r2 len k :
  len ≤ 8 → k < len →
  resourcebyte order r1 k ≠ resourcebyte order r2 k →
  comparebytes order r1 r2 0 (N.to_nat len) = Some false.
Proof.
  intros Hlen Hk Hne.
  destruct (comparebytes_is_Some order r1 r2 (N.to_nat len) 0) as [[|] Hc];
    [lia | | done].
  destruct Hne. apply (comparebytes_true _ _ _ _ _ Hc). lia.
Qed.

(** ** The segment loop *)

Lemma segmentloop_indecisive order r1 r2 p q rest segs2 i :
  segs2 !! i = Some q →
  indecisive order r1 r2 p q →
  segmentloop order r1 r2 (p :: rest) segs2 i
  = segmentloop order r1 r2 rest segs2 (S i).
Proof.
  intros Hq (Hp1 & Hq1 & Hp2 & Hq2 & Hlen & Hle & Hbytes). simpl.
  apply islockall_false in Hp1, Hq1. apply islocksame_false in Hp2, Hq2.
  rewrite Hp1, Hq, Hq1, Hp2, Hq2. simpl.
  rewrite <- Hlen, N.eqb_refl. simpl.
  by rewrite comparebytes_agree.
Qed.

(** A run of positions that all fall through is skipped; the index into
    the second record advances with it. *)
Lemma segmentloop_skip order r1 r2 pre1 pre2 : ∀ rest1 segs2 i,
  Forall2 (indecisive order r1 r2) pre1 pre2 →
  (∀ k q, pre2 !! k = Some q → segs2 !! (i + k)%nat = Some q) →
  segmentloop order r1 r2 (pre1 ++ rest1) segs2 i
  = segmentloop order r1 r2 rest1 segs2 (i + length pre1)%nat.
Proof.
  intros rest1 segs2 i HF. revert i.
  induction HF as [|p q pre1 pre2 Hpq HF IH]; intros i Hsegs2.
  - simpl. by rewrite Nat.add_0_r.
  - rewrite <- app_comm_cons.
    rewrite (segmentloop_indecisive order r1 r2 p q); [|..|done].
    + rewrite IH.
      * simpl. f_equal. lia.
      * intros k q' Hk. replace (S i + k)%nat with (i + S k)%nat by lia.
        by apply Hsegs2.
    + specialize (Hsegs2 O q eq_refl). by rewrite Nat.add_0_r in Hsegs2.
Qed.

Lemma notbothread a b :
  ¬ (locktype a = "Read"%string ∧ locktype b = "Read"%string) →
  String.eqb (locktype a) "Read" && String.eqb (locktype b) "Read" = false.
Proof.
  intros Hnot. apply andb_false_iff.
  destruct (String.eqb_spec (locktype a) "Read");
    destruct (String.eqb_spec (locktype b) "Read"); tauto.
Qed.

(** There is no ninth byte: a segment whose bytes all exist is at most
    eight bytes long. *)
Lemma bytes_exist_le order r len :
  (∀ k, k < len → is_Some (resourcebyte order r k)) → len ≤ 8.
Proof.
  intros Hex. destruct (N.le_gt_cases len 8) as [|Hgt]; [done|].
  destruct (Hex 8 Hgt) as [x Hx]. discriminate.
Qed.

(** ** The pairwise conflict check *)

(** When every position falls through, the check ends with false. *)
Lemma isconflictrecord_all_indecisive order a b :
  Forall2 (indecisive order (resourceid a) (resourceid b))
          (segmentinfo a) (segmentinfo b) →
  isconflictrecord order a b = Some false.
Proof.
  intros HF. unfold isconflictrecord.
  destruct (_ && _); [done|].
  rewrite <- (app_nil_r (segmentinfo a)).
  rewrite (segmentloop_skip order _ _ _ (segmentinfo b)); [done | done |].
  intros k q Hk. by rewrite Nat.add_0_l.
Qed.

(** A request whose segments are all DontLock against itself. *)
Lemma isconflictrecord_dontlock_self order a :
  Forall (λ p, p.1 = "DontLock"%string ∧ p.2 ≤ 8) (segmentinfo a) →
  isconflictrecord order a a = Some false.
Proof.
  intros Hall. apply isconflictrecord_all_indecisive.
  induction Hall as [|p segs [Hp Hle] _ IH]; constructor; [|done].
  unfold indecisive. rewrite Hp. repeat split; done.
Qed.

(** C3.  Two requests that are not both Read, with as many segments each,
    whose aligned segments are all DontLock with equal lengths and whose
    resource ids agree on the bytes [0 .. length-1] of every position, do
    not conflict: no position decides and the check ends with false.  In
    particular a Write request whose segments are all DontLock (none
    longer than the eight bytes of a resource id) does not conflict with a
    copy of itself. *)
Theorem isconflictrecord_dontlock_agree order :
  (∀ a b,
     ¬ (locktype a = "Read"%string ∧ locktype b = "Read"%string) →
     length (segmentinfo a) = length (segmentinfo b) →
     (∀ (i : nat) p q,
        segmentinfo a !! i = Some p → segmentinfo b !! i = Some q →
        p.1 = "DontLock"%string ∧ q.1 = "DontLock"%string ∧ p.2 = q.2 ∧
        ∀ k, k < p.2 →
             ∃ x, resourcebyte order (resourceid a) k = Some x ∧
                  resourcebyte order (resourceid b) k = Some x) →
     isconflictrecord order a b = Some false)
  ∧ (∀ a,
       locktype a = "Write"%string →
       Forall (λ p, p.1 = "DontLock"%string ∧ p.2 ≤ 8) (segmentinfo a) →
       isconflictrecord order a a = Some false).
Proof.
  split.
  - intros a b _ Hlen Hpos. apply isconflictrecord_all_indecisive.
    apply Forall2_same_length_lookup_2; [done|].
    intros i p q Hp Hq.
    destruct (Hpos i p q Hp Hq) as (Hpf & Hqf & Hl & Hbytes).
    unfold indecisive. rewrite Hpf, Hqf.
    repeat split; try done.
    + apply (bytes_exist_le order (resourceid a)).
      intros k Hk. destruct (Hbytes k Hk) as (x & -> & _). eauto.
    + intros k Hk. destruct (Hbytes k Hk) as (x & -> & ->). done.
  - intros a _ Hall. by apply isconflictrecord_dontlock_self.
Qed.

Lemma isconflictrecord_dontlock_agree_witness :
  isconflictrecord LittleEndian dontlock22 dontlock22_other = Some false
  ∧ isconflictrecord LittleEndian dontlock22 dontlock22 = Some false.
Proof.
  split.
  - apply (proj1 (isconflictrecord_dontlock_agree LittleEndian)).
    + intros [Hr _]. discriminate Hr.
    + reflexivity.
    + intros [|[|i]] p q Hp Hq; simpl in Hp, Hq; try discriminate;
        injection Hp as <-; injection Hq as <-;
        (repeat split; try reflexivity);
        intros k Hk; simpl in Hk;
        assert (Hk' : k = 0 ∨ k = 1) by lia;
        destruct Hk' as [-> | ->]; eexists; split; reflexivity.
  - apply (proj2 (isconflictrecord_dontlock_agree LittleEndian) dontlock22).
    + reflexivity.
    + repeat constructor; simpl; lia.
Defined.

(** The check from position [i] on, when a later position [i + d] holds
    segments of different lengths and nothing up to it is LockAll, or
    LockSame beside an equally long peer. *)
Lemma segmentloop_length_mismatch order r1 r2 segs2 (d : nat) :
  ∀ segs1 (i : nat) p q,
  segs1 !! d = Some p → segs2 !! (i + d)%nat = Some q → p.2 ≠ q.2 →
  (∀ (k : nat) pk qk, (k ≤ d)%nat →
     segs1 !! k = Some pk → segs2 !! (i + k)%nat = Some qk →
     pk.1 ≠ "LockAll"%string ∧ qk.1 ≠ "LockAll"%string ∧
     (pk.1 = "LockSame"%string ∨ qk.1 = "LockSame"%string → pk.2 ≠ qk.2)) →
  (∀ (k : nat) pk, (k < d)%nat → segs1 !! k = Some pk → pk.2 ≤ 8) →
  segmentloop order r1 r2 segs1 segs2 i = Some false.
Proof.
  induction d as [|d IH]; intros segs1 i p q Hp Hq Hne Hflags Hle;
    destruct segs1 as [|p0 rest]; try discriminate; simpl in Hp.
  - injection Hp as ->. rewrite Nat.add_0_r in Hq.
    destruct (Hflags O p q) as (Hpa & Hqa & _);
      [lia | done | by rewrite Nat.add_0_r |].
    apply islockall_false in Hpa, Hqa. simpl. rewrite Hpa, Hq, Hqa.
    apply N.eqb_neq in Hne. rewrite Hne, andb_false_r. done.
  - assert (Hq0 : is_Some (segs2 !! i)).
    { apply lookup_lt_is_Some. apply lookup_lt_Some in Hq. lia. }
    destruct Hq0 as [q0 Hq0].
    destruct (Hflags O p0 q0) as (Hpa & Hqa & Hsame);
      [lia | done | by rewrite Nat.add_0_r |].
    apply islockall_false in Hpa, Hqa. simpl. rewrite Hpa, Hq0, Hqa.
    destruct (N.eqb_spec p0.2 q0.2) as [Heq|Hneq].
    + assert (Hns : islocksame p0.1 || islocksame q0.1 = false).
      { apply orb_false_iff. split; apply islocksame_false; intros Hs;
          apply Hsame; auto. }
      rewrite Hns. simpl.
      destruct (comparebytes_is_Some order r1 r2 (N.to_nat p0.2) 0)
        as [[|] ->];
        [pose proof (Hle O p0 ltac:(lia) eq_refl); rewrite N2Nat.id; lia
        | | done].
      apply (IH rest (S i) p q); try done.
      * by replace (S i + d)%nat with (i + S d)%nat by lia.
      * intros k pk qk Hk Hpk Hqk. apply (Hflags (S k)); [lia | done |].
        by replace (i + S k)%nat with (S i + k)%nat by lia.
      * intros k pk Hk Hpk. apply (Hle (S k)); [lia | done].
    + by rewrite andb_false_r.
Qed.

(** C4, as amended.  If the segments at an aligned position have different
    lengths and, up to and including that position, no segment of either
    request is LockAll and none is LockSame beside a peer of the same
    length, the pair does not conflict, whatever the resource ids hold
    (the segments of the first request in front of that position being at
    most eight bytes long, so that the bytes compared exist). *)
Theorem isconflictrecord_length_mismatch order a b (i : nat) p q :
  segmentinfo a !! i = Some p → segmentinfo b !! i = Some q →
  p.2 ≠ q.2 →
  (∀ (k : nat) pk qk, (k ≤ i)%nat →
     segmentinfo a !! k = Some pk → segmentinfo b !! k = Some qk →
     pk.1 ≠ "LockAll"%string ∧ qk.1 ≠ "LockAll"%string ∧
     (pk.1 = "LockSame"%string ∨ qk.1 = "LockSame"%string → pk.2 ≠ qk.2)) →
  (∀ (k : nat) pk, (k < i)%nat → segmentinfo a !! k = Some pk → pk.2 ≤ 8) →
  isconflictrecord order a b = Some false.
Proof.
  intros Hp Hq Hne Hflags Hle. unfold isconflictrecord.
  destruct (_ && _); [done|].
  by apply (segmentloop_length_mismatch order _ _ _ i _ O p q).
Qed.

Lemma isconflictrecord_length_mismatch_witness :
  isconflictrecord LittleEndian two_segments longer_second_segment
  = Some false.
Proof.
  apply (isconflictrecord_length_mismatch LittleEndian
           two_segments longer_second_segment 1
           ("DontLock"%string, 1) ("DontLock"%string, 2)).
  - reflexivity.
  - reflexivity.
  - simpl. lia.
  - intros [|[|k]] pk qk Hk Hpk Hqk; simpl in Hpk, Hqk; try lia;
      injection Hpk as <-; injection Hqk as <-; simpl;
      (split; [discriminate | split; [discriminate |]]);
      intros [Hs | Hs]; discriminate Hs.
  - intros [|k] pk Hk Hpk; simpl in Hpk; try lia.
    injection Hpk as <-. simpl. lia.
Defined.

(** C4 as stated fails: with LockAll in front, segments of different
    lengths at position 1 do not keep the pair from conflicting. *)
Lemma length_mismatch_does_not_exclude_conflict :
  ¬ (∀ order a b (i : nat) p q,
       segmentinfo a !! i = Some p → segmentinfo b !! i = Some q →
       p.2 ≠ q.2 → isconflictrecord order a b = Some false).
Proof.
  intros Hall.
  specialize (Hall LittleEndian lockall_first longer_second_segment 1%nat
                ("DontLock"%string, 1) ("DontLock"%string, 2)
                eq_refl eq_refl).
  assert (Hne : (1 : N) ≠ 2) by lia.
  specialize (Hall Hne). vm_compute in Hall. discriminate Hall.
Qed.

(** The loop body at a position that reaches the byte comparison. *)
Lemma segmentloop_compare order r1 r2 p q rest segs2 (i : nat) :
  segs2 !! i = Some q →
  p.1 ≠ "LockAll"%string → q.1 ≠ "LockAll"%string →
  ¬ ((p.1 = "LockSame"%string ∨ q.1 = "LockSame"%string) ∧ p.2 = q.2) →
  p.2 = q.2 →
  segmentloop order r1 r2 (p :: rest) segs2 i
  = match comparebytes order r1 r2 0 (N.to_nat p.2) with
    | None => None
    | Some false => Some false
    | Some true => segmentloop order r1 r2 rest segs2 (S i)
    end.
Proof.
  intros Hq Hpa Hqa Hsame Hlen. simpl.
  apply islockall_false in Hpa, Hqa. rewrite Hpa, Hq, Hqa.
  assert (Hns : islocksame p.1 || islocksame q.1 = false).
  { apply orb_false_iff. split; apply islocksame_false; intros Hs;
      apply Hsame; auto. }
  rewrite Hns. simpl. apply N.eqb_eq in Hlen. by rewrite Hlen.
Qed.

(** The byte read of [checkbyte] is the arithmetic byte of the id. *)
Lemma resourcebyte_idbyte order r j :
  j < 8 → resourcebyte order r j = Some (idbyte order r j).
Proof.
  intros Hj. unfold resourcebyte, idbyte.
  apply N.ltb_lt in Hj. rewrite Hj.
  destruct order; f_equal;
    rewrite N.shiftr_div_pow2; change 255 with (N.ones 8);
    rewrite N.land_ones, N.pow_mul_r; reflexivity.
Qed.

(** The check at a position reached after a run of positions that fell
    through, in terms of the byte reads of the code. *)
Lemma isconflictrecord_at_position order a b pre1 pre2 p q rest1 rest2 :
  ¬ (locktype a = "Read"%string ∧ locktype b = "Read"%string) →
  segmentinfo a = pre1 ++ p :: rest1 →
  segmentinfo b = pre2 ++ q :: rest2 →
  Forall2 (indecisive order (resourceid a) (resourceid b)) pre1 pre2 →
  p.1 ≠ "LockAll"%string → q.1 ≠ "LockAll"%string →
  ¬ ((p.1 = "LockSame"%string ∨ q.1 = "LockSame"%string) ∧ p.2 = q.2) →
  p.2 = q.2 → p.2 ≤ 8 →
  ((∃ j, j < p.2 ∧
         resourcebyte order (resourceid a) j
         ≠ resourcebyte order (resourceid b) j) →
   isconflictrecord order a b = Some false)
  ∧ ((∀ j, j < p.2 →
           resourcebyte order (resourceid a) j
           = resourcebyte order (resourceid b) j) →
     isconflictrecord order a b
     = segmentloop order (resourceid a) (resourceid b)
         rest1 (segmentinfo b) (S (length pre1))).
Proof.
  intros Hread Ha Hb Hpre Hpa Hqa Hsame Hlen Hle.
  assert (Hlenpre : length pre1 = length pre2)
    by (eapply Forall2_length; eauto).
  assert (Hstep : isconflictrecord order a b
    = match comparebytes order (resourceid a) (resourceid b) 0
              (N.to_nat p.2) with
      | None => None
      | Some false => Some false
      | Some true =>
          segmentloop order (resourceid a) (resourceid b)
            rest1 (segmentinfo b) (S (length pre1))
      end).
  { unfold isconflictrecord. rewrite (notbothread a b Hread), Ha.
    rewrite (segmentloop_skip order _ _ pre1 pre2); [|done|].
    - simpl. apply (segmentloop_compare order _ _ p q); try done.
      rewrite Hb, Hlenpre. by rewrite list_lookup_middle.
    - intros k q' Hk. rewrite Hb. simpl.
      rewrite lookup_app_l; [done|]. by apply lookup_lt_Some in Hk. }
  split.
  - intros (j & Hj & Hne). rewrite Hstep.
    by rewrite (comparebytes_differ order _ _ _ j).
  - intros Heq. rewrite Hstep. by rewrite comparebytes_agree.
Qed.

(** C5.  Let the check reach the byte comparison at a position: the
    request pair is not Read/Read, every earlier position fell through
    without a verdict, and at this position neither segment is LockAll,
    there is no LockSame beside an equal length, and the two lengths are
    equal (and within the eight bytes of a resource id).  Then what is
    compared are the bytes at offsets [0 .. length-1] of the two whole
    resource ids, counted from offset 0 whatever lies in front of the
    position: if any of them differs the pair does not conflict, and if
    all agree the check moves on to the next position.  The bytes are
    those of the numbers themselves, [idbyte]. *)
Theorem isconflictrecord_byte_comparison order a b pre1 pre2 p q rest1 rest2 :
  ¬ (locktype a = "Read"%string ∧ locktype b = "Read"%string) →
  segmentinfo a = pre1 ++ p :: rest1 →
  segmentinfo b = pre2 ++ q :: rest2 →
  Forall2 (fallsthrough order (resourceid a) (resourceid b)) pre1 pre2 →
  p.1 ≠ "LockAll"%string → q.1 ≠ "LockAll"%string →
  ¬ ((p.1 = "LockSame"%string ∨ q.1 = "LockSame"%string) ∧ p.2 = q.2) →
  p.2 = q.2 → p.2 ≤ 8 →
  ((∃ j, j < p.2 ∧
         idbyte order (resourceid a) j ≠ idbyte order (resourceid b) j) →
   isconflictrecord order a b = Some false)
  ∧ ((∀ j, j < p.2 →
           idbyte order (resourceid a) j = idbyte order (resourceid b) j) →
     isconflictrecord order a b
     = segmentloop order (resourceid a) (resourceid b)
         rest1 (segmentinfo b) (S (length pre1))).
Proof.
  intros Hread Ha Hb Hpre Hpa Hqa Hsame Hlen Hle.
  assert (Hpre' : Forall2 (indecisive order (resourceid a) (resourceid b))
                          pre1 pre2).
  { eapply Forall2_impl; [exact Hpre|].
    intros x y (Hx1 & Hy1 & Hx2 & Hy2 & Hxy & Hx8 & Hbytes).
    unfold indecisive. repeat split; try done.
    intros k Hk. rewrite !resourcebyte_idbyte by lia.
    f_equal. by apply Hbytes. }
  destruct (isconflictrecord_at_position order a b pre1 pre2 p q rest1 rest2
              Hread Ha Hb Hpre' Hpa Hqa Hsame Hlen Hle) as [Hdiffer Hagree].
  split.
  - intros (j & Hj & Hne). apply Hdiffer. exists j. split; [done|].
    rewrite !resourcebyte_idbyte by lia. intros [= Hsome]. done.
  - intros Heq. apply Hagree. intros j Hj.
    rewrite !resourcebyte_idbyte by lia. f_equal. by apply Heq.
Qed.

Lemma isconflictrecord_byte_comparison_witness :
  isconflictrecord LittleEndian two_bytes_then_lockall two_bytes_256
  = Some false
  ∧ isconflictrecord LittleEndian lockall_third dontlock_third_256
    = Some true.
Proof.
  split.
  - refine (proj1 (isconflictrecord_byte_comparison LittleEndian
                     two_bytes_then_lockall two_bytes_256
                     [("DontLock"%string, 1)] [("DontLock"%string, 1)]
                     ("DontLock"%string, 2) ("DontLock"%string, 2)
                     [("LockAll"%string, 1)] [("DontLock"%string, 1)]
                     _ _ _ _ _ _ _ _ _) _).
    + intros [Hr _]. discriminate Hr.
    + reflexivity.
    + reflexivity.
    + constructor; [|constructor].
      unfold fallsthrough. simpl.
      repeat split; try discriminate; try lia.
      intros k Hk. assert (k = 0) as -> by lia. reflexivity.
    + discriminate.
    + discriminate.
    + intros [[Hs | Hs] _]; discriminate Hs.
    + reflexivity.
    + simpl. lia.
    + exists 1. split; [simpl; lia | discriminate].
  - refine (eq_trans
              (proj2 (isconflictrecord_byte_comparison LittleEndian
                        lockall_third dontlock_third_256
                        [("DontLock"%string, 1)] [("DontLock"%string, 1)]
                        ("DontLock"%string, 1) ("DontLock"%string, 1)
                        [("LockAll"%string, 1)] [("DontLock"%string, 1)]
                        _ _ _ _ _ _ _ _ _) _) _).
    + intros [Hr _]. discriminate Hr.
    + reflexivity.
    + reflexivity.
    + constructor; [|constructor].
      unfold fallsthrough. simpl.
      repeat split; try discriminate; try lia.
      intros k Hk. assert (k = 0) as -> by lia. reflexivity.
    + discriminate.
    + discriminate.
    + intros [[Hs | Hs] _]; discriminate Hs.
    + reflexivity.
    + simpl. lia.
    + intros j Hj. simpl in Hj. assert (j = 0) as -> by lia. reflexivity.
    + reflexivity.
Defined.

(** The offsets restart at 0 at every position: the resource ids 0 and
    256 differ in the byte at offset 1 only, yet the length-1 segment at
    position 1 does not tell them apart (it compares offset 0 again) and
    the LockAll at position 2 is reached. *)
Example byte_offsets_restart :
  resourcebyte LittleEndian 0 1 ≠ resourcebyte LittleEndian 256 1
  ∧ isconflictrecord LittleEndian lockall_third dontlock_third_256
    = Some true.
Proof. split; [discriminate | reflexivity]. Qed.

(** When the first request has segments left after the second has run
    out, and nothing has been decided by then, the next read of the
    second request's segments is out of range (unless the first
    request's segment there is LockAll, which is tested first). *)
Lemma isconflictrecord_runs_past_end order a b pre1 p rest1 :
  ¬ (locktype a = "Read"%string ∧ locktype b = "Read"%string) →
  segmentinfo a = pre1 ++ p :: rest1 →
  Forall2 (indecisive order (resourceid a) (resourceid b))
          pre1 (segmentinfo b) →
  p.1 ≠ "LockAll"%string →
  isconflictrecord order a b = None.
Proof.
  intros Hread Ha Hpre Hpa. unfold isconflictrecord.
  rewrite (notbothread a b Hread), Ha.
  rewrite (segmentloop_skip order _ _ pre1 (segmentinfo b)); [|done|done].
  simpl. apply islockall_false in Hpa. rewrite Hpa.
  rewrite (Forall2_length _ _ _ Hpre).
  by rewrite lookup_ge_None_2.
Qed.

(** C6.  The pairwise check is not defined on every pair of valid
    requests: there are two requests that pass validation, the first
    with more segments than the second, all shared positions DontLock
    with equal lengths and equal resource-id bytes, on which the check
    indexes the second request's segments out of range. *)
Theorem isconflictrecord_out_of_range :
  ∃ a b,
    isvalidlockrequest a = true ∧ isvalidlockrequest b = true ∧
    (length (segmentinfo b) < length (segmentinfo a))%nat ∧
    Forall2 (λ p q, p.1 = "DontLock"%string ∧ q.1 = "DontLock"%string ∧
                    p.2 = q.2)
            (take (length (segmentinfo b)) (segmentinfo a)) (segmentinfo b) ∧
    resourceid a = resourceid b ∧
    ∀ order, isconflictrecord order a b = None.
Proof.
  exists three_segments, two_segments.
  split; [reflexivity|]. split; [reflexivity|].
  split; [simpl; lia|]. split; [by repeat constructor|].
  split; [reflexivity|].
  intros order.
  apply (isconflictrecord_runs_past_end order three_segments two_segments
           [("DontLock"%string, 1); ("DontLock"%string, 1)]
           ("DontLock"%string, 1) []).
  - intros [Hr _]. discriminate Hr.
  - reflexivity.
  - repeat constructor; simpl; try discriminate; lia.
  - discriminate.
Qed.

(** ** Validation *)

(** The segment loop of the validator, entered with [lockflag] flags
    counted so far. *)
Lemma validsegments_iff segs : ∀ lockflag : Z,
  (lockflag < 2)%Z →
  validsegments segs lockflag = true ↔
  Forall legalsegment segs
  ∧ (lockflag + Z.of_nat (length (filter carrieslock segs)) < 2)%Z.
Proof.
  induction segs as [|p rest IH]; intros c Hc; cbn [validsegments].
  - rewrite filter_nil. simpl.
    split; [intros _; split; [constructor | lia] | done].
  - rewrite filter_cons, Forall_cons.
    unfold legalsegment at 1, carrieslock at 1.
    unfold islocksame, islockall, isdontlock.
    destruct (String.eqb_spec p.1 "LockSame") as [Hs|Hs];
      destruct (String.eqb_spec p.1 "LockAll") as [Ha|Ha];
      destruct (String.eqb_spec p.1 "DontLock") as [Hd|Hd];
      try congruence; simpl;
      destruct (N.ltb_spec p.2 1); destruct (N.ltb_spec 4 p.2); simpl;
      try (split; [discriminate | intros [[[Hfl Hr] _] _]; exfalso;
                   first [lia | destruct Hfl as [?|[?|?]]; congruence]]);
      destruct (decide _) as [Hf|Hf];
      try (exfalso; first [destruct Hf; congruence | apply Hf; auto; fail]);
      try (destruct (Z.leb_spec 2 (c + 1));
           [split; [discriminate | simpl; lia]|]);
      rewrite IH by lia; simpl length;
      (split; [intros [? ?]; repeat split; auto; lia
              |intros [[_ ?] ?]; split; [done | lia]]).
Qed.

(** C7, as amended.  A request passes validation exactly when its lock
    type is Read or Write, it has between 2 and 6 segments, every segment
    carries one of the flags LockSame, LockAll, DontLock and a length
    between 1 and 4, and fewer than two segments carry LockSame or
    LockAll. *)
Theorem isvalidlockrequest_iff (r : lockrequest) :
  isvalidlockrequest r = true ↔
  (locktype r = "Read"%string ∨ locktype r = "Write"%string)
  ∧ (2 ≤ length (segmentinfo r) ≤ 6)%nat
  ∧ Forall legalsegment (segmentinfo r)
  ∧ (length (filter carrieslock (segmentinfo r)) < 2)%nat.
Proof.
  unfold isvalidlockrequest.
  destruct (String.eqb_spec (locktype r) "Read") as [Hr|Hr];
    destruct (String.eqb_spec (locktype r) "Write") as [Hw|Hw]; simpl;
    try (split; [discriminate | intros [[?|?] _]; congruence]);
    destruct (Nat.ltb_spec 6 (length (segmentinfo r)));
    destruct (Nat.ltb_spec (length (segmentinfo r)) 2); simpl;
    try (split; [discriminate | intros (_ & ? & _); lia]);
    rewrite validsegments_iff by lia;
    (split; [intros [? ?]; repeat split; auto; lia
            |intros (_ & _ & ? & ?); split; [done | lia]]).
Qed.

(** The boundaries of the validator: 1 and 7 segments are rejected, 2 and
    6 accepted; lengths 0 and 5 are rejected, 1 and 4 accepted; two
    flagged segments are rejected, one is accepted. *)
Example isvalidlockrequest_boundaries :
  let dl n := ("DontLock"%string, n) in
  let req segs := mklockrequest "session" "console" "Read" 0 segs in
  isvalidlockrequest (req [dl 1]) = false
  ∧ isvalidlockrequest (req [dl 1; dl 1]) = true
  ∧ isvalidlockrequest (req [dl 1; dl 1; dl 1; dl 1; dl 1; dl 1]) = true
  ∧ isvalidlockrequest (req [dl 1; dl 1; dl 1; dl 1; dl 1; dl 1; dl 1]) = false
  ∧ isvalidlockrequest (req [dl 0; dl 1]) = false
  ∧ isvalidlockrequest (req [dl 4; dl 1]) = true
  ∧ isvalidlockrequest (req [dl 5; dl 1]) = false
  ∧ isvalidlockrequest (req [("LockSame"%string, 1); ("LockSame"%string, 1)])
    = false
  ∧ isvalidlockrequest (req [("LockSame"%string, 1); ("LockAll"%string, 1)])
    = false
  ∧ isvalidlockrequest (req [("LockSame"%string, 1); dl 1]) = true
  ∧ isvalidlockrequest (req [dl 1; ("LockAll"%string, 1)]) = true.
Proof. repeat split. Qed.

(** C7 as stated fails: the four conditions it lists do not make a
    request valid, since a segment flag that is none of the three lock
    flags is rejected as well. *)
Lemma isvalidlockrequest_rejects_unknown_flag :
  ¬ (∀ r : lockrequest,
       isvalidlockrequest r = true ↔
       (locktype r = "Read"%string ∨ locktype r = "Write"%string)
       ∧ (2 ≤ length (segmentinfo r) ≤ 6)%nat
       ∧ Forall (λ p, 1 ≤ p.2 ≤ 4) (segmentinfo r)
       ∧ (length (filter carrieslock (segmentinfo r)) < 2)%nat).
Proof.
  intros Hall. destruct (Hall unknown_flag) as [_ Hvalid].
  assert (Hno : isvalidlockrequest unknown_flag = false) by reflexivity.
  rewrite Hvalid in Hno; [discriminate|].
  split; [by right|]. split; [simpl; lia|].
  split; [repeat constructor; simpl; lia|].
  vm_compute. lia.
Qed.

(** ** Acquire *)

Lemma emplace_fresh id v (m : gmap N (list lockrequest)) :
  m !! id = None → emplace id v m !! id = Some v.
Proof. intros Hid. unfold emplace. rewrite Hid. apply lookup_insert_eq. Qed.

(** An empty batch passes all three stages. *)
Lemma Acquirelock_nil order st :
  Acquirelock order [] st
  = Some (Granted ((transactionID st + 1) mod 2 ^ 32),
          mklock ((transactionID st + 1) mod 2 ^ 32)
                 (emplace ((transactionID st + 1) mod 2 ^ 32) []
                    (locktable st))).
Proof.
  unfold Acquirelock, isconflictwithtable. simpl.
  by destruct (decide (locktable st = ∅)).
Qed.

(** What [isconflictwithtable] returns: a conflict and the state as it
    was, or the next id and the batch emplaced under it. *)
Lemma isconflictwithtable_cases order reqs st conflict st' :
  isconflictwithtable order reqs st = Some (conflict, st') →
  (∃ id (q : lockrequest), conflict = (true, inr (id, q)) ∧ st' = st)
  ∨ (conflict = (false, inl ((transactionID st + 1) mod 2 ^ 32))
     ∧ st' = mklock ((transactionID st + 1) mod 2 ^ 32)
               (emplace ((transactionID st + 1) mod 2 ^ 32) reqs
                  (locktable st))).
Proof.
  unfold isconflictwithtable. simpl.
  destruct (decide (locktable st = ∅)).
  - intros [= <- <-]. by right.
  - destruct (scantable order reqs (entries (locktable st)))
      as [[[id q]|]|]; intros [= <- <-]; [left; eauto | by right].
Qed.

(** What [Acquirelock] returns. *)
Lemma Acquirelock_cases order reqs st r st' :
  Acquirelock order reqs st = Some (r, st') →
  (r = InvalidRequest ∧ st' = st)
  ∨ (r = SelfConflict ∧ st' = st)
  ∨ (∃ id (q : lockrequest), r = TableConflict id q ∧ st' = st)
  ∨ (r = Granted ((transactionID st + 1) mod 2 ^ 32)
     ∧ st' = mklock ((transactionID st + 1) mod 2 ^ 32)
               (emplace ((transactionID st + 1) mod 2 ^ 32) reqs
                  (locktable st))).
Proof.
  unfold Acquirelock.
  destruct (negb (forallb isvalidlockrequest reqs)).
  { intros [= <- <-]. by left. }
  destruct (isconflictrequest order reqs) as [[|]|]; [| |discriminate].
  { intros [= <- <-]. right. by left. }
  destruct (isconflictwithtable order reqs st) as [[conflict st1]|] eqn:Ht;
    [|discriminate].
  intros [= <- <-].
  destruct (isconflictwithtable_cases _ _ _ _ _ Ht)
    as [(id & q & -> & ->) | [-> ->]].
  - right. right. left. by exists id, q.
  - right. right. by right.
Qed.

(** A granted batch sits in the table under its id, provided the id was
    not in use. *)
Lemma Acquirelock_granted_entry order reqs st t st' :
  Acquirelock order reqs st = Some (Granted t, st') →
  locktable st !! t = None →
  locktable st' !! t = Some reqs.
Proof.
  intros Hacq Hfresh.
  destruct (Acquirelock_cases _ _ _ _ _ Hacq)
    as [[Hr _] | [[Hr _] | [(id & q & Hr & _) | [Hr ->]]]];
    try discriminate Hr.
  injection Hr as ->. simpl. by apply emplace_fresh.
Qed.

(** What [Releaselock] returns. *)
Lemma Releaselock_cases (p : list N) ids st r st' :
  Releaselock p ids st = Some (r, st') →
  (r = InvalidTransactionId ∧ st' = st)
  ∨ (∃ id (q : lockrequest), r = NotOwner id q ∧ st' = st)
  ∨ (∃ x, r = (true, inr (true, x))
          ∧ st' = mklock (transactionID st) (releaselock p (locktable st))).
Proof.
  unfold Releaselock.
  destruct (validaterids p (locktable st)); simpl.
  - destruct (isitmylock p (ids.1, ids.2) (locktable st))
      as [[[|] [id q]]|]; [| |discriminate]; intros [= <- <-]; simpl.
    + right. right. by eexists.
    + right. left. by exists id, q.
  - intros [= <- <-]. by left.
Qed.

(** C8.  Acquire and Release are all-or-nothing: when Acquire returns
    InvalidRequest, SelfConflict or TableConflict, or Release returns
    InvalidTransactionId or NotOwner, the lock table and the counter are
    what they were before the call. *)
Theorem rejection_leaves_state :
  (∀ order reqs st r st',
     Acquirelock order reqs st = Some (r, st') →
     acquire_rejected r → st' = st)
  ∧ (∀ (p : list N) ids st r st',
       Releaselock p ids st = Some (r, st') →
       release_rejected r → st' = st).
Proof.
  split.
  - intros order reqs st r st' Hacq Hrej.
    destruct (Acquirelock_cases _ _ _ _ _ Hacq)
      as [[_ ->] | [[_ ->] | [(id & q & _ & ->) | [-> _]]]]; try done.
    destruct Hrej as [Hr | [Hr | (id & q & Hr)]]; discriminate Hr.
  - intros p ids st r st' Hrel Hrej.
    destruct (Releaselock_cases _ _ _ _ _ Hrel)
      as [[_ ->] | [(id & q & _ & ->) | (x & -> & _)]]; try done.
    destruct Hrej as [Hr | (id & q & Hr)]; discriminate Hr.
Qed.

Lemma rejection_leaves_state_witness :
  (∃ st', Acquirelock LittleEndian [dontlock22] lockall_held
          = Some (TableConflict 1 lockall_write, st')
          ∧ st' = lockall_held)
  ∧ (∃ st', Releaselock [1] ("console2"%string, "session2"%string)
              lockall_held
            = Some (NotOwner 1 lockall_write, st')
            ∧ st' = lockall_held).
Proof.
  split; eexists; (split; [vm_compute; reflexivity|]).
  - apply (proj1 rejection_leaves_state LittleEndian [dontlock22]
             lockall_held (TableConflict 1 lockall_write)).
    + vm_compute; reflexivity.
    + right; right. by exists 1, lockall_write.
  - apply (proj2 rejection_leaves_state [1]
             ("console2"%string, "session2"%string)
             lockall_held (NotOwner 1 lockall_write)).
    + vm_compute; reflexivity.
    + right. by exists 1, lockall_write.
Defined.

(** ** Release *)

(** The ownership check of a single id looks at the first record of the
    batch only, and passes exactly for that record's console and session
    ids. *)
Lemma isitmylock_single t first rest (ids : string * string)
    (table : gmap N (list lockrequest)) :
  table !! t = Some (first :: rest) →
  isitmylock [t] ids table
  = Some (if String.eqb (hmcid first) ids.1
             && String.eqb (sessionid first) ids.2
          then (true, (0, lockrequest_default))
          else (false, (t, first))).
Proof. intros Ht. simpl. rewrite Ht. by destruct (_ && _). Qed.

(** Release of one id by the identity on the first record of its batch. *)
Lemma Releaselock_first_record t first rest st :
  locktable st !! t = Some (first :: rest) →
  Releaselock [t] (hmcid first, sessionid first) st
  = Some (Released, mklock (transactionID st) (delete t (locktable st))).
Proof.
  intros Ht. unfold Releaselock. simpl. rewrite Ht. simpl.
  by rewrite !String.eqb_refl.
Qed.

(** Release of an id that is not in the table. *)
Lemma Releaselock_absent t ids st :
  locktable st !! t = None →
  Releaselock [t] ids st = Some (InvalidTransactionId, st).
Proof. intros Ht. unfold Releaselock. simpl. by rewrite Ht. Qed.

(** C1.  Let the table hold a batch under transaction id [t] and let the
    first record of the batch carry the console id [console] and the
    session id [session].  The ownership check of [t] passes for exactly
    this identity (the code takes it as the pair of console id and
    session id, in this order), whatever the other records hold; Release
    of [t] by this identity returns Released, removes [t] from the table
    and leaves the rest of the state alone; a second Release of [t]
    returns Rejected(InvalidTransactionId). *)
Theorem Releaselock_by_owner t first rest session console st :
  locktable st !! t = Some (first :: rest) →
  sessionid first = session → hmcid first = console →
  (∀ ids, isitmylock [t] ids (locktable st)
          = Some (true, (0, lockrequest_default))
          ↔ ids = (console, session))
  ∧ ∃ st',
      Releaselock [t] (console, session) st = Some (Released, st')
      ∧ locktable st' = delete t (locktable st)
      ∧ locktable st' !! t = None
      ∧ transactionID st' = transactionID st
      ∧ Releaselock [t] (console, session) st'
        = Some (InvalidTransactionId, st').
Proof.
  intros Ht <- <-. split.
  - intros [c s]. rewrite (isitmylock_single t first rest) by done.
    simpl.
    destruct (String.eqb_spec (hmcid first) c) as [->|Hne];
      destruct (String.eqb_spec (sessionid first) s) as [->|Hne']; simpl;
      (split; [intros Hok; first [done | discriminate Hok]
              |intros Heq; first [done | injection Heq; congruence]]).
  - exists (mklock (transactionID st) (delete t (locktable st))).
    split; [by apply (Releaselock_first_record t first rest)|].
    repeat split.
    + simpl. apply lookup_delete_eq.
    + apply Releaselock_absent. simpl. apply lookup_delete_eq.
Qed.

(** The order of the caller's pair matters: the first component is
    matched with the console id, the second with the session id. *)
Example Releaselock_pair_order :
  Releaselock [1] ("console"%string, "session"%string) lockall_held
  = Some (Released, mklock 1 ∅)
  ∧ Releaselock [1] ("session"%string, "console"%string) lockall_held
    = Some (NotOwner 1 lockall_write, lockall_held).
Proof. split; vm_compute; reflexivity. Qed.

Lemma Releaselock_by_owner_witness :
  ∃ st', Releaselock [1] ("console"%string, "session"%string) lockall_held
         = Some (Released, st')
         ∧ Releaselock [1] ("console"%string, "session"%string) st'
           = Some (InvalidTransactionId, st').
Proof.
  destruct (Releaselock_by_owner 1 lockall_write [] "session" "console"
              lockall_held eq_refl eq_refl eq_refl)
    as (_ & st' & Hrel & _ & _ & _ & Hagain).
  exists st'. split; [exact Hrel | exact Hagain].
Defined.

(** From Acquire to Release: a batch granted under an id that was not in
    use is released by the identity on its first record, once. *)
Lemma Acquirelock_then_Releaselock order first rest st t st1 :
  Acquirelock order (first :: rest) st = Some (Granted t, st1) →
  locktable st !! t = None →
  ∃ st2,
    Releaselock [t] (hmcid first, sessionid first) st1
    = Some (Released, st2)
    ∧ locktable st2 = locktable st
    ∧ Releaselock [t] (hmcid first, sessionid first) st2
      = Some (InvalidTransactionId, st2).
Proof.
  intros Hacq Hfresh.
  pose proof (Acquirelock_granted_entry _ _ _ _ _ Hacq Hfresh) as Hentry.
  eexists. split; [by apply (Releaselock_first_record t first rest)|].
  destruct (Acquirelock_cases _ _ _ _ _ Hacq)
    as [[Hr _] | [[Hr _] | [(id & q & Hr & _) | [Hr ->]]]];
    try discriminate Hr.
  injection Hr as ->. simpl. unfold emplace. rewrite Hfresh.
  rewrite delete_insert_eq, delete_id by done.
  split; [done|]. by apply Releaselock_absent.
Qed.

(** A batch without records has no first record to compare with: after
    Acquire of an empty batch, Release of its id is undefined. *)
Example Releaselock_empty_batch_undefined (ids : string * string) :
  ∃ st', Acquirelock LittleEndian [] newlock = Some (Granted 1, st')
         ∧ Releaselock [1] ids st' = None.
Proof. eexists. split; [vm_compute; reflexivity | reflexivity]. Qed.

(** ** Acquire, then Acquire again *)

Lemma scan_single order r held (t : N) :
  isconflictrecord order r held = Some false →
  scantable order [r] (entries {[t := [held]]}) = Some None.
Proof.
  intros Hno. unfold entries. rewrite map_to_list_singleton.
  cbn. by rewrite Hno.
Qed.

(** A batch that passes validation and the two conflict checks is
    granted under the next id. *)
Lemma Acquirelock_no_conflict order reqs st :
  forallb isvalidlockrequest reqs = true →
  isconflictrequest order reqs = Some false →
  locktable st = ∅
  ∨ scantable order reqs (entries (locktable st)) = Some None →
  Acquirelock order reqs st
  = Some (Granted ((transactionID st + 1) mod 2 ^ 32),
          mklock ((transactionID st + 1) mod 2 ^ 32)
                 (emplace ((transactionID st + 1) mod 2 ^ 32) reqs
                    (locktable st))).
Proof.
  intros Hvalid Hself Htable. unfold Acquirelock, isconflictwithtable.
  rewrite Hvalid, Hself. cbn [negb generateTransactionID].
  destruct (decide (locktable st = ∅)) as [|Hne]; [done|].
  destruct Htable as [|Hscan]; [done|]. by rewrite Hscan.
Qed.

(** C2, as amended.  On a fresh lock object, Acquire of a one-record Write
    batch with two DontLock segments of length 2 returns Granted(1), and
    Acquire of the identical batch right after returns Granted(2): the
    record does not conflict with its copy in the table, and the table
    then holds the batch under both ids. *)
Theorem Acquirelock_identical_dontlock_batch order (r : lockrequest) :
  locktype r = "Write"%string →
  segmentinfo r = [("DontLock"%string, 2); ("DontLock"%string, 2)] →
  isconflictrecord order r r = Some false
  ∧ Acquirelock order [r] newlock
    = Some (Granted 1, mklock 1 {[1 := [r]]})
  ∧ Acquirelock order [r] (mklock 1 {[1 := [r]]})
    = Some (Granted 2, mklock 2 (<[2 := [r]]> {[1 := [r]]})).
Proof.
  intros Hw Hsegs.
  assert (Hvalid : isvalidlockrequest r = true).
  { unfold isvalidlockrequest. by rewrite Hw, Hsegs. }
  assert (Hself : isconflictrecord order r r = Some false).
  { apply isconflictrecord_dontlock_self. rewrite Hsegs.
    repeat constructor; simpl; lia. }
  split; [done|]. split.
  - rewrite Acquirelock_no_conflict; [done | | done | by left].
    simpl. by rewrite Hvalid.
  - rewrite Acquirelock_no_conflict;
      [| | done | right; by apply scan_single].
    + simpl transactionID. simpl locktable.
      change ((1 + 1) mod 2 ^ 32) with 2.
      unfold emplace. by rewrite lookup_singleton_ne.
    + simpl. by rewrite Hvalid.
Qed.

Lemma Acquirelock_identical_dontlock_batch_witness :
  Acquirelock BigEndian [dontlock22] (mklock 1 {[1 := [dontlock22]]})
  = Some (Granted 2,
          mklock 2 (<[2 := [dontlock22]]> {[1 := [dontlock22]]})).
Proof.
  apply (Acquirelock_identical_dontlock_batch BigEndian dontlock22);
    reflexivity.
Defined.

(** C2 as stated fails: the second Acquire of the identical batch is not
    rejected with TableConflict(1, record). *)
Lemma identical_dontlock_batch_no_tableconflict :
  ¬ (∀ order (r : lockrequest),
       locktype r = "Write"%string →
       segmentinfo r = [("DontLock"%string, 2); ("DontLock"%string, 2)] →
       ∃ st1 st2,
         Acquirelock order [r] newlock = Some (Granted 1, st1)
         ∧ Acquirelock order [r] st1 = Some (TableConflict 1 r, st2)).
Proof.
  intros Hall.
  destruct (Hall LittleEndian dontlock22 eq_refl eq_refl)
    as (st1 & st2 & Hfirst & Hsecond).
  assert (Hst1 : st1 = mklock 1 {[1 := [dontlock22]]}).
  { vm_compute in Hfirst. injection Hfirst as <-. vm_compute. reflexivity. }
  subst st1. vm_compute in Hsecond. discriminate Hsecond.
Qed.

(** ** The transaction ids of a sequence of calls *)

(** A call either grants nothing and leaves the counter alone, or grants
    the next value of the counter. *)
Lemma serve_counter order o st r st' :
  serve order o st = Some (r, st') →
  (grantedid r = None ∧ transactionID st' = transactionID st)
  ∨ (grantedid r = Some ((transactionID st + 1) mod 2 ^ 32)
     ∧ transactionID st' = (transactionID st + 1) mod 2 ^ 32).
Proof.
  destruct o as [reqs | ids who]; simpl.
  - destruct (Acquirelock order reqs st) as [[ra st1]|] eqn:Hacq;
      [|discriminate].
    intros [= <- <-].
    destruct (Acquirelock_cases _ _ _ _ _ Hacq)
      as [[-> ->] | [[-> ->] | [(id & q & -> & ->) | [-> ->]]]];
      auto.
  - destruct (Releaselock ids who st) as [[rr st1]|] eqn:Hrel;
      [|discriminate].
    intros [= <- <-]. left. split; [done|].
    destruct (Releaselock_cases _ _ _ _ _ Hrel)
      as [[_ ->] | [(id & q & _ & ->) | (x & _ & ->)]]; done.
Qed.

(** The [k]-th id issued after a state is its counter plus [k], on 32
    bits. *)
Lemma issued_run order ops : ∀ st,
  issued (run order ops st)
  = (λ k : nat, (transactionID st + N.of_nat k) mod 2 ^ 32)
    <$> seq 1 (length (issued (run order ops st))).
Proof.
  induction ops as [|o rest IH]; intros st; [done|].
  cbn [run]. destruct (serve order o st) as [[r st']|] eqn:Hserve; [|done].
  unfold issued. cbn [omap list_omap]. fold (issued (run order rest st')).
  destruct (serve_counter _ _ _ _ _ Hserve) as [[-> Hc] | [-> Hc]].
  - rewrite (IH st') at 1. by rewrite Hc.
  - cbn [length seq fmap list_fmap]. f_equal.
    rewrite <- (fmap_S_seq 1), <- list_fmap_compose.
    rewrite (IH st') at 1.
    apply list_fmap_ext. intros _ k _. simpl. rewrite Hc.
    rewrite N.Div0.add_mod_idemp_l. f_equal. lia.
Qed.

Lemma StronglySorted_of_nat_seq (n : nat) : ∀ j : nat,
  StronglySorted N.lt (N.of_nat <$> seq j n).
Proof.
  induction n as [|n IH]; intros j; simpl; constructor; [apply IH|].
  apply Forall_fmap, Forall_forall. intros k Hk. simpl.
  apply elem_of_seq in Hk. lia.
Qed.

(** C9, as amended.  Starting from a fresh lock object, as long as fewer
    than 2^32 transaction ids have been issued, the ids returned by the
    successful Acquires of any sequence of Acquire and Release calls are
    1, 2, 3, ... in this order: they begin at 1, are strictly increasing
    and none is issued twice. *)
Theorem issued_ids_increasing order (ops : list request) :
  N.of_nat (length (issued (run order ops newlock))) < 2 ^ 32 →
  issued (run order ops newlock)
  = N.of_nat <$> seq 1 (length (issued (run order ops newlock)))
  ∧ StronglySorted N.lt (issued (run order ops newlock))
  ∧ NoDup (issued (run order ops newlock))
  ∧ (∀ id, head (issued (run order ops newlock)) = Some id → id = 1).
Proof.
  intros Hfew.
  assert (Hids : issued (run order ops newlock)
    = N.of_nat <$> seq 1 (length (issued (run order ops newlock)))).
  { rewrite (issued_run order ops newlock) at 1.
    apply list_fmap_ext. intros i k Hk. simpl.
    apply lookup_seq in Hk as [-> Hlt].
    apply N.mod_small. lia. }
  split; [done|]. rewrite Hids. split; [|split].
  - apply StronglySorted_of_nat_seq.
  - apply (NoDup_fmap_2 _), NoDup_seq.
  - destruct (length _); simpl; [discriminate|]. by intros id [= <-].
Qed.

Lemma issued_ids_increasing_witness :
  issued (run LittleEndian
            [Acquire [dontlock22]; Release [1] ("console"%string,
                                                "session"%string);
             Acquire [unknown_flag]; Acquire []; Acquire [lockall_write]]
            newlock)
  = [1; 2; 3].
Proof.
  refine (proj1 (issued_ids_increasing LittleEndian _ _)).
  vm_compute. reflexivity.
Defined.

(** Every Acquire of an empty batch issues an id. *)
Lemma issued_replicate_empty_length order (n : nat) : ∀ st,
  length (issued (run order (replicate n (Acquire [])) st)) = n.
Proof.
  induction n as [|n IH]; intros st; [done|].
  cbn [replicate run serve]. rewrite Acquirelock_nil.
  unfold issued. cbn [omap list_omap grantedid Granted length].
  f_equal. apply IH.
Qed.

(** After 2^32 - 1 grants the counter wraps: the next id is 0. *)
Lemma issued_wraps order (n : nat) :
  N.of_nat n = 4294967296 →
  ¬ StronglySorted N.lt
      (issued (run order (replicate n (Acquire [])) newlock)).
Proof.
  intros Hn Hsorted.
  rewrite issued_run, issued_replicate_empty_length in Hsorted.
  destruct n as [|[|m]]; [lia | lia |].
  rewrite seq_S in Hsorted. cbn [seq fmap list_fmap] in Hsorted.
  rewrite fmap_app in Hsorted. cbn [fmap list_fmap] in Hsorted.
  apply StronglySorted_inv in Hsorted as [_ Hall].
  apply Forall_app in Hall as [_ Hlast].
  apply Forall_inv in Hlast.
  cbn [transactionID newlock] in Hlast.
  replace (0 + N.of_nat (1 + S m)) with 4294967296 in Hlast by lia.
  change (0 + N.of_nat 1) with 1 in Hlast.
  change (1 `mod` 2 ^ 32) with 1 in Hlast.
  change (4294967296 `mod` 2 ^ 32) with 0 in Hlast.
  lia.
Qed.

(** C9 as stated fails: the counter is a 32-bit number without wrap-around
    handling, so 2^32 Acquires of an empty batch are answered with the ids
    1, 2, ..., 2^32 - 1 and then 0. *)
Lemma issued_ids_not_always_increasing :
  ¬ (∀ order (ops : list request),
       StronglySorted N.lt (issued (run order ops newlock))
       ∧ NoDup (issued (run order ops newlock))).
Proof.
  intros Hall.
  exact (issued_wraps LittleEndian (N.to_nat 4294967296)
           (N2Nat.id 4294967296)
           (proj1 (Hall LittleEndian
                     (replicate (N.to_nat 4294967296) (Acquire []))))).
Qed.

(** * Further properties of the lock manager *)

(** ** Release of a list of ids *)

Lemma validaterids_true (p : list N) (table : gmap N (list lockrequest)) :
  validaterids p table = true ↔ ∀ id, id ∈ p → is_Some (table !! id).
Proof.
  induction p as [|id rest IH]; simpl.
  - split; [intros _ id Hid; by apply elem_of_nil in Hid | done].
  - destruct (table !! id) as [batch|] eqn:Hid.
    + rewrite IH. split.
      * intros Hrest k Hk. apply elem_of_cons in Hk as [->|Hk]; [|auto].
        rewrite Hid. eauto.
      * intros Hall k Hk. apply Hall. by apply elem_of_cons; right.
    + split; [discriminate|]. intros Hall.
      destruct (Hall id) as [x Hx]; [by apply elem_of_cons; left|].
      congruence.
Qed.

Lemma validaterids_false (p : list N) (table : gmap N (list lockrequest)) :
  validaterids p table = false ↔ ∃ id, id ∈ p ∧ table !! id = None.
Proof.
  induction p as [|id rest IH]; simpl.
  - split; [discriminate|]. intros (id & Hid & _).
    by apply elem_of_nil in Hid.
  - destruct (table !! id) as [batch|] eqn:Hid.
    + rewrite IH. split.
      * intros (k & Hk & Hnone). exists k. split; [|done].
        by apply elem_of_cons; right.
      * intros (k & Hk & Hnone). exists k. split; [|done].
        apply elem_of_cons in Hk as [->|Hk]; [congruence | done].
    + split; [|done]. intros _. exists id. split; [|done].
      by apply elem_of_cons; left.
Qed.

Lemma isitmylock_true (p : list N) (ids : string * string)
    (table : gmap N (list lockrequest)) x :
  isitmylock p ids table = Some (true, x) ↔
  x = (0, lockrequest_default) ∧ Forall (owns ids table) p.
Proof.
  induction p as [|id rest IH]; simpl.
  - split; [intros [= <-]; by split | intros [-> _]; done].
  - destruct (table !! id) as [[|first more]|] eqn:Hid.
    + split; [discriminate|]. intros [_ Hall].
      apply Forall_cons in Hall as [(f & r & Hf & _) _]. congruence.
    + destruct (String.eqb_spec (hmcid first) ids.1) as [Hc|Hc];
        destruct (String.eqb_spec (sessionid first) ids.2) as [Hs|Hs];
        simpl;
        try (split; [discriminate|]; intros [_ Hall];
             apply Forall_cons in Hall as [(f & r & Hf & ? & ?) _];
             congruence).
      rewrite IH. split; intros [-> Hall]; (split; [done|]).
      * constructor; [by exists first, more | done].
      * by apply Forall_cons in Hall as [_ ?].
    + split; [discriminate|]. intros [_ Hall].
      apply Forall_cons in Hall as [(f & r & Hf & _) _]. congruence.
Qed.

Lemma owns_is_Some ids (table : gmap N (list lockrequest)) id :
  owns ids table id → is_Some (table !! id).
Proof. intros (f & r & -> & _). eauto. Qed.

(** X1.  Release is rejected with InvalidTransactionId exactly when one of
    the named ids is not a key of the table, and the state is then left
    as it was. *)
Theorem Releaselock_invalid_iff (p : list N) ids st st' :
  Releaselock p ids st = Some (InvalidTransactionId, st') ↔
  (∃ id, id ∈ p ∧ locktable st !! id = None) ∧ st' = st.
Proof.
  unfold Releaselock.
  destruct (validaterids p (locktable st)) eqn:Hv; simpl.
  - pose proof (proj1 (validaterids_true _ _) Hv) as Hall.
    split.
    + destruct (isitmylock _ _ _) as [status|]; intros [= ? ?].
    + intros [(id & Hid & Hnone) _]. destruct (Hall id Hid) as [x Hx].
      congruence.
  - split.
    + intros [= <-]. split; [|done]. by apply validaterids_false.
    + by intros [_ ->].
Qed.

Lemma lookup_releaselock (p : list N) (table : gmap N (list lockrequest))
    (k : N) :
  releaselock p table !! k = if decide (k ∈ p) then None else table !! k.
Proof.
  revert table. induction p as [|id rest IH]; intros table; simpl.
  - destruct (decide (k ∈ [])) as [Hk|_]; [|done].
    by apply elem_of_nil in Hk.
  - rewrite IH.
    destruct (decide (k ∈ rest)) as [Hk|Hk];
      destruct (decide (k ∈ id :: rest)) as [Hk'|Hk']; try done.
    + destruct Hk'. by apply elem_of_cons; right.
    + apply elem_of_cons in Hk' as [->|?]; [|done].
      apply lookup_delete_eq.
    + apply lookup_delete_ne. intros ->. apply Hk'.
      by apply elem_of_cons; left.
Qed.

(** X2.  A Release that returns Released removes the named ids and
    nothing else: afterwards a key of the table is absent if it was named
    (once or several times), and holds what it held otherwise; the counter
    is untouched. *)
Theorem Releaselock_released_lookup (p : list N) ids st st' :
  Releaselock p ids st = Some (Released, st') →
  transactionID st' = transactionID st
  ∧ ∀ k, locktable st' !! k
         = if decide (k ∈ p) then None else locktable st !! k.
Proof.
  intros Hrel.
  destruct (Releaselock_cases _ _ _ _ _ Hrel)
    as [[Hr _] | [(id & q & Hr & _) | (x & _ & ->)]];
    try discriminate Hr.
  split; [done|]. intros k. simpl. apply lookup_releaselock.
Qed.

Lemma Releaselock_released_lookup_witness :
  ∃ st', Releaselock [1; 1] ("console"%string, "session"%string) two_held
         = Some (Released, st')
         ∧ locktable st' !! 1 = None
         ∧ locktable st' !! 2 = Some [dontlock22_other].
Proof.
  eexists. split; [vm_compute; reflexivity|].
  destruct (Releaselock_released_lookup [1; 1]
              ("console"%string, "session"%string) two_held _
              ltac:(vm_compute; reflexivity)) as [_ Hlookup].
  split; [exact (Hlookup 1) | exact (Hlookup 2)].
Defined.

(** X3.  Release returns Released exactly when every named id holds a
    batch whose first record carries the caller's console and session
    ids; the named ids are then erased and the counter is untouched.  An
    empty list of ids is released without any effect. *)
Theorem Releaselock_released_iff (p : list N) ids st st' :
  Releaselock p ids st = Some (Released, st') ↔
  Forall (owns ids (locktable st)) p
  ∧ st' = mklock (transactionID st) (releaselock p (locktable st)).
Proof.
  unfold Releaselock, Released.
  destruct (validaterids p (locktable st)) eqn:Hv; simpl.
  - destruct (isitmylock p (ids.1, ids.2) (locktable st))
      as [[ok x]|] eqn:Hmine.
    + destruct ok; simpl.
      * apply isitmylock_true in Hmine as [-> Hall]. split.
        -- intros [= <-]. by destruct ids.
        -- intros [_ ->]. done.
      * split; [intros [= ? ?]|]. intros [Hall _].
        assert (Hsome : isitmylock p (ids.1, ids.2) (locktable st)
                        = Some (true, (0, lockrequest_default))).
        { apply isitmylock_true. split; [done|]. by destruct ids. }
        congruence.
    + split; [discriminate|]. intros [Hall _].
      assert (Hsome : isitmylock p (ids.1, ids.2) (locktable st)
                      = Some (true, (0, lockrequest_default))).
      { apply isitmylock_true. split; [done|]. by destruct ids. }
      congruence.
  - split; [discriminate|]. intros [Hall _].
    apply validaterids_false in Hv as (id & Hid & Hnone).
    rewrite Forall_forall in Hall.
    destruct (owns_is_Some _ _ _ (Hall id Hid)) as [x Hx]. congruence.
Qed.

Lemma isitmylock_false (p : list N) (ids : string * string)
    (table : gmap N (list lockrequest)) id (q : lockrequest) :
  isitmylock p ids table = Some (false, (id, q)) ↔
  ∃ pre post rest,
    p = pre ++ id :: post
    ∧ Forall (owns ids table) pre
    ∧ table !! id = Some (q :: rest)
    ∧ ¬ (hmcid q = ids.1 ∧ sessionid q = ids.2).
Proof.
  induction p as [|k more IH]; simpl.
  - split; [discriminate|]. intros (pre & post & rest & Hp & _).
    by destruct pre.
  - destruct (table !! k) as [[|first others]|] eqn:Hk.
    + split; [discriminate|].
      intros ([|k' pre] & post & rest & Hp & Hpre & Hid & _);
        simplify_eq/=.
      apply Forall_cons in Hpre as [(f & r & Hf & _) _]. congruence.
    + destruct (String.eqb_spec (hmcid first) ids.1) as [Hc|Hc];
        destruct (String.eqb_spec (sessionid first) ids.2) as [Hs|Hs];
        simpl.
      * rewrite IH. split.
        -- intros (pre & post & rest & -> & Hpre & Hid & Hne).
           exists (k :: pre), post, rest. repeat split; try done.
           constructor; [by exists first, others | done].
        -- intros ([|k' pre] & post & rest & Hp & Hpre & Hid & Hne);
             simplify_eq/=.
           { destruct Hne. done. }
           apply Forall_cons in Hpre as [_ Hpre].
           by exists pre, post, rest.
      * split.
        -- intros [= <- <-]. exists [], more, others.
           repeat split; try done. tauto.
        -- intros ([|k' pre] & post & rest & Hp & Hpre & Hid & Hne);
             simplify_eq/=; [done|].
           apply Forall_cons in Hpre as [(f & r & Hf & ? & ?) _].
           congruence.
      * split.
        -- intros [= <- <-]. exists [], more, others.
           repeat split; try done. tauto.
        -- intros ([|k' pre] & post & rest & Hp & Hpre & Hid & Hne);
             simplify_eq/=; [done|].
           apply Forall_cons in Hpre as [(f & r & Hf & ? & ?) _].
           congruence.
      * split.
        -- intros [= <- <-]. exists [], more, others.
           repeat split; try done. tauto.
        -- intros ([|k' pre] & post & rest & Hp & Hpre & Hid & Hne);
             simplify_eq/=; [done|].
           apply Forall_cons in Hpre as [(f & r & Hf & ? & ?) _].
           congruence.
    + split; [discriminate|].
      intros ([|k' pre] & post & rest & Hp & Hpre & Hid & _);
        simplify_eq/=.
      apply Forall_cons in Hpre as [(f & r & Hf & _) _]. congruence.
Qed.

(** X4.  Release is rejected with NotOwner(id, record) exactly when all
    named ids are keys of the table and [id] is the first named id, in
    the order of the list, whose batch has a first record with another
    console or session id; [record] is that first record, and the state
    is left as it was, also for the ids in front that the caller owns. *)
Theorem Releaselock_notowner_iff (p : list N) ids st id
    (record : lockrequest) st' :
  Releaselock p ids st = Some (NotOwner id record, st') ↔
  (∀ k, k ∈ p → is_Some (locktable st !! k))
  ∧ (∃ pre post rest,
       p = pre ++ id :: post
       ∧ Forall (owns ids (locktable st)) pre
       ∧ locktable st !! id = Some (record :: rest)
       ∧ ¬ (hmcid record = ids.1 ∧ sessionid record = ids.2))
  ∧ st' = st.
Proof.
  unfold Releaselock, NotOwner.
  destruct (validaterids p (locktable st)) eqn:Hv; simpl.
  - pose proof (proj1 (validaterids_true _ _) Hv) as Hall.
    destruct (isitmylock p (ids.1, ids.2) (locktable st))
      as [[ok [k x]]|] eqn:Hmine.
    + destruct ok; simpl.
      * split; [intros [= ? ?]|]. intros (_ & Hfirst & _).
        apply (isitmylock_false p (ids.1, ids.2)) in Hfirst. congruence.
      * split.
        -- intros [= -> -> <-]. split; [done|]. split; [|done].
           by apply (isitmylock_false p (ids.1, ids.2)) in Hmine.
        -- intros (_ & Hfirst & ->).
           apply (isitmylock_false p (ids.1, ids.2)) in Hfirst.
           rewrite Hmine in Hfirst. by injection Hfirst as -> ->.
    + split; [discriminate|]. intros (_ & Hfirst & _).
      apply (isitmylock_false p (ids.1, ids.2)) in Hfirst. congruence.
  - split; [discriminate|]. intros (Hall & _).
    apply validaterids_true in Hall. congruence.
Qed.

(** ** What Acquire does to the table *)

Lemma emplace_lookup id v (m : gmap N (list lockrequest)) k :
  emplace id v m !! k
  = match m !! k with
    | Some x => Some x
    | None => if decide (k = id) then Some v else None
    end.
Proof.
  unfold emplace. destruct (m !! id) as [old|] eqn:Hid.
  - destruct (m !! k) as [x|] eqn:Hk; [done|].
    destruct (decide (k = id)) as [->|]; [congruence | done].
  - destruct (decide (k = id)) as [->|Hne].
    + by rewrite lookup_insert_eq, Hid.
    + rewrite lookup_insert_ne by done. by destruct (m !! k).
Qed.

(** X5.  Acquire never alters or removes what the table holds: every
    entry present before the call is present, unchanged, after it,
    whatever the call returns, and no key other than the next value of
    the counter is added. *)
Theorem Acquirelock_keeps_entries order reqs st r st' :
  Acquirelock order reqs st = Some (r, st') →
  (∀ k batch, locktable st !! k = Some batch →
              locktable st' !! k = Some batch)
  ∧ (∀ k, k ≠ (transactionID st + 1) mod 2 ^ 32 →
          locktable st' !! k = locktable st !! k).
Proof.
  intros Hacq.
  destruct (Acquirelock_cases _ _ _ _ _ Hacq)
    as [[_ ->] | [[_ ->] | [(id & q & _ & ->) | [_ ->]]]]; try done.
  simpl. split.
  - intros k batch Hk. by rewrite emplace_lookup, Hk.
  - intros k Hne. rewrite emplace_lookup.
    destruct (locktable st !! k); [done|].
    by destruct (decide _).
Qed.

Lemma Acquirelock_keeps_entries_witness :
  ∃ st', Acquirelock LittleEndian [dontlock22] two_held
         = Some (TableConflict 1 lockall_write, st')
         ∧ locktable st' !! 2 = Some [dontlock22_other].
Proof.
  eexists. split; [vm_compute; reflexivity|].
  apply (proj1 (Acquirelock_keeps_entries LittleEndian [dontlock22]
                  two_held (TableConflict 1 lockall_write) _
                  ltac:(vm_compute; reflexivity))).
  vm_compute. reflexivity.
Defined.

(** X6.  Acquire is rejected with InvalidRequest exactly when some record
    of the batch fails validation, whatever else the batch and the table
    hold; the state is then left as it was. *)
Theorem Acquirelock_invalid_iff order reqs st st' :
  Acquirelock order reqs st = Some (InvalidRequest, st') ↔
  (∃ r, r ∈ reqs ∧ isvalidlockrequest r = false) ∧ st' = st.
Proof.
  unfold Acquirelock, InvalidRequest.
  destruct (forallb isvalidlockrequest reqs) eqn:Hv; simpl.
  - split.
    + destruct (isconflictrequest order reqs) as [[|]|];
        [intros [= ? ?] | | discriminate].
      destruct (isconflictwithtable order reqs st) as [[c st1]|];
        intros [= ? ?].
    + intros [(r & Hr & Hbad) _].
      rewrite forallb_forall in Hv.
      rewrite (Hv r) in Hbad; [discriminate|]. by apply list_elem_of_In.
  - split; [|by intros [_ ->]].
    intros [= <-]. split; [|done].
    assert (Hex : Exists (λ r, isvalidlockrequest r = false) reqs).
    { clear -Hv. induction reqs as [|r rest IH]; simpl in Hv;
        [discriminate|].
      destruct (isvalidlockrequest r) eqn:Hr; simpl in Hv;
        [apply Exists_cons_tl; auto | by apply Exists_cons_hd]. }
    by apply Exists_exists in Hex.
Qed.

(** ** The conflict checks of a batch *)

Lemma conflictwithlater_false order (p : lockrequest) later :
  conflictwithlater order p later = Some false ↔
  Forall (λ q : lockrequest, isconflictrecord order p q = Some false) later.
Proof.
  induction later as [|q rest IH]; simpl; [by split|].
  rewrite Forall_cons.
  destruct (isconflictrecord order p q) as [[|]|];
    [split; [discriminate | by intros [? _]]
    | rewrite IH; tauto
    | split; [discriminate | by intros [? _]]].
Qed.

Lemma conflictwithlater_true order (p : lockrequest) later :
  conflictwithlater order p later = Some true →
  ∃ (j : nat) (q : lockrequest), later !! j = Some q
                 ∧ isconflictrecord order p q = Some true.
Proof.
  induction later as [|q rest IH]; simpl; [discriminate|].
  destruct (isconflictrecord order p q) as [[|]|] eqn:Hpq;
    [intros _; by exists O, q | | discriminate].
  intros Hrest. destruct (IH Hrest) as (j & q' & Hj & Hc).
  by exists (S j), q'.
Qed.

Lemma conflictpairs_false order (reqs : list lockrequest) :
  conflictpairs order reqs = Some false ↔
  ∀ (i j : nat) (p q : lockrequest),
    (i < j)%nat → reqs !! i = Some p → reqs !! j = Some q →
    isconflictrecord order p q = Some false.
Proof.
  induction reqs as [|r rest IH]; simpl.
  - split; [intros _ i j p q _ Hi; discriminate Hi | done].
  - destruct (conflictwithlater order r rest) as [[|]|] eqn:Hr.
    + split; [discriminate|]. intros Hall.
      destruct (conflictwithlater_true _ _ _ Hr) as (j & q & Hj & Hc).
      rewrite (Hall O (S j) r q) in Hc; [discriminate | lia | done | done].
    + apply conflictwithlater_false in Hr. rewrite Forall_lookup in Hr.
      rewrite IH. split.
      * intros Hrest [|i] [|j] p q Hij Hi Hj; simpl in Hi, Hj; try lia.
        -- injection Hi as <-. by apply (Hr j).
        -- apply (Hrest i j); [lia | done | done].
      * intros Hall i j p q Hij Hi Hj.
        apply (Hall (S i) (S j)); [lia | done | done].
    + split; [discriminate|]. intros Hall.
      assert (Hf : conflictwithlater order r rest = Some false);
        [|congruence].
      apply conflictwithlater_false, Forall_lookup. intros j q Hj.
      apply (Hall O (S j)); [lia | done | done].
Qed.

Lemma conflictpairs_true order (reqs : list lockrequest) :
  conflictpairs order reqs = Some true →
  ∃ (i j : nat) (p q : lockrequest),
    (i < j)%nat ∧ reqs !! i = Some p ∧ reqs !! j = Some q
    ∧ isconflictrecord order p q = Some true.
Proof.
  induction reqs as [|r rest IH]; simpl; [discriminate|].
  destruct (conflictwithlater order r rest) as [[|]|] eqn:Hr;
    [| |discriminate].
  - intros _. destruct (conflictwithlater_true _ _ _ Hr)
      as (j & q & Hj & Hc).
    exists O, (S j), r, q. repeat split; [lia | done | done].
  - intros Hrest. destruct (IH Hrest) as (i & j & p & q & Hij & Hi & Hj & Hc).
    exists (S i), (S j), p, q. repeat split; [lia | done | done | done].
Qed.

(** X7.  The self-conflict check of a batch answers false exactly when
    every record is found not to conflict with every record after it, and
    it answers true only if some record conflicts with a later one; a
    batch of one record has no such pair. *)
Theorem isconflictrequest_pairs order (reqs : list lockrequest) :
  (isconflictrequest order reqs = Some false ↔
   ∀ (i j : nat) (p q : lockrequest),
     (i < j)%nat → reqs !! i = Some p → reqs !! j = Some q →
     isconflictrecord order p q = Some false)
  ∧ (isconflictrequest order reqs = Some true →
     ∃ (i j : nat) (p q : lockrequest),
       (i < j)%nat ∧ reqs !! i = Some p ∧ reqs !! j = Some q
       ∧ isconflictrecord order p q = Some true).
Proof.
  unfold isconflictrequest.
  destruct (Nat.eqb_spec (length reqs) 1) as [Hone|_].
  - split; [|discriminate]. split; [|done].
    intros _ i j p q Hij Hi Hj.
    apply lookup_lt_Some in Hi, Hj. lia.
  - split; [apply conflictpairs_false | apply conflictpairs_true].
Qed.

(** ** The scan of the table *)

#[local] Instance keyle_transitive : Transitive keyle.
Proof. intros x y z. unfold keyle. lia. Qed.

#[local] Instance keyle_total : Total keyle.
Proof. intros x y. unfold keyle. lia. Qed.

Lemma elem_of_entries (m : gmap N (list lockrequest)) id batch :
  (id, batch) ∈ entries m ↔ m !! id = Some batch.
Proof.
  unfold entries. rewrite merge_sort_Permutation.
  apply elem_of_map_to_list.
Qed.

Lemma entries_sorted (m : gmap N (list lockrequest)) :
  StronglySorted keyle (entries m).
Proof. apply (StronglySorted_merge_sort _). Qed.

Lemma entries_empty : entries ∅ = [].
Proof. unfold entries. by rewrite map_to_list_empty. Qed.

Lemma scanbatch_none order (p : lockrequest) id batch :
  scanbatch order p id batch = Some None ↔ compatible order p batch.
Proof.
  unfold compatible. induction batch as [|q rest IH]; simpl; [by split|].
  rewrite Forall_cons.
  destruct (isconflictrecord order p q) as [[|]|];
    [split; [discriminate | by intros [? _]]
    | rewrite IH; tauto
    | split; [discriminate | by intros [? _]]].
Qed.

Lemma scanbatch_hit order (p : lockrequest) id batch hit :
  scanbatch order p id batch = Some (Some hit) →
  ∃ bpre (q : lockrequest) bpost,
    batch = bpre ++ q :: bpost ∧ hit = (id, q)
    ∧ compatible order p bpre
    ∧ isconflictrecord order p q = Some true.
Proof.
  induction batch as [|q rest IH]; simpl; [discriminate|].
  destruct (isconflictrecord order p q) as [[|]|] eqn:Hpq;
    [| |discriminate].
  - intros [= <-]. exists [], q, rest. repeat split; try done.
    constructor.
  - intros Hrest.
    destruct (IH Hrest) as (bpre & q' & bpost & -> & -> & Hpre & Hc).
    exists (q :: bpre), q', bpost. repeat split; try done.
    by constructor.
Qed.

Lemma scanentries_none order (p : lockrequest)
    (es : list (N * list lockrequest)) :
  scanentries order p es = Some None ↔
  Forall (λ e, compatible order p e.2) es.
Proof.
  induction es as [|e rest IH]; simpl; [by split|].
  rewrite Forall_cons.
  destruct (scanbatch order p e.1 e.2) as [[hit|]|] eqn:He.
  - split; [discriminate|]. intros [Hc _].
    apply (scanbatch_none order p e.1) in Hc. congruence.
  - apply scanbatch_none in He. rewrite IH. tauto.
  - split; [discriminate|]. intros [Hc _].
    apply (scanbatch_none order p e.1) in Hc. congruence.
Qed.

Lemma scanentries_hit order (p : lockrequest)
    (es : list (N * list lockrequest)) hit :
  scanentries order p es = Some (Some hit) →
  ∃ epre e epost,
    es = epre ++ e :: epost
    ∧ Forall (λ e, compatible order p e.2) epre
    ∧ scanbatch order p e.1 e.2 = Some (Some hit).
Proof.
  induction es as [|e rest IH]; simpl; [discriminate|].
  destruct (scanbatch order p e.1 e.2) as [[h|]|] eqn:He; [| |discriminate].
  - intros [= <-]. exists [], e, rest. repeat split; try done.
  - intros Hrest.
    destruct (IH Hrest) as (epre & e' & epost & -> & Hpre & Hhit).
    exists (e :: epre), e', epost. repeat split; try done.
    constructor; [by apply scanbatch_none in He | done].
Qed.

Lemma scantable_none order (reqs : list lockrequest)
    (es : list (N * list lockrequest)) :
  scantable order reqs es = Some None ↔
  Forall (λ p : lockrequest, Forall (λ e, compatible order p e.2) es) reqs.
Proof.
  induction reqs as [|p rest IH]; simpl; [by split|].
  rewrite Forall_cons.
  destruct (scanentries order p es) as [[hit|]|] eqn:Hp.
  - split; [discriminate|]. intros [Hc _].
    apply scanentries_none in Hc. congruence.
  - apply scanentries_none in Hp. rewrite IH. tauto.
  - split; [discriminate|]. intros [Hc _].
    apply scanentries_none in Hc. congruence.
Qed.

Lemma scantable_hit order (reqs : list lockrequest)
    (es : list (N * list lockrequest)) hit :
  scantable order reqs es = Some (Some hit) →
  ∃ pre (p : lockrequest) post,
    reqs = pre ++ p :: post
    ∧ Forall (λ p : lockrequest,
                Forall (λ e, compatible order p e.2) es) pre
    ∧ scanentries order p es = Some (Some hit).
Proof.
  induction reqs as [|p rest IH]; simpl; [discriminate|].
  destruct (scanentries order p es) as [[h|]|] eqn:Hp; [| |discriminate].
  - intros [= <-]. exists [], p, rest. repeat split; try done.
  - intros Hrest.
    destruct (IH Hrest) as (pre & p' & post & -> & Hpre & Hhit).
    exists (p :: pre), p', post. repeat split; try done.
    constructor; [by apply scanentries_none in Hp | done].
Qed.

(** The table scan finds nothing exactly when every record of the
    request is compatible with every batch in the table. *)
Lemma scantable_entries_none order (reqs : list lockrequest)
    (m : gmap N (list lockrequest)) :
  scantable order reqs (entries m) = Some None ↔
  ∀ (p : lockrequest) id batch,
    p ∈ reqs → m !! id = Some batch → compatible order p batch.
Proof.
  rewrite scantable_none, Forall_forall. split.
  - intros Hall p id batch Hp Hid.
    specialize (Hall p Hp). rewrite Forall_forall in Hall.
    apply (Hall (id, batch)). by apply elem_of_entries.
  - intros Hall p Hp. apply Forall_forall. intros [id batch] He.
    apply elem_of_entries in He. by apply (Hall p id batch).
Qed.

(** X8.  Acquire grants a batch exactly when all its records pass
    validation, the self-conflict check answers false, and every record
    is found not to conflict with any record of any batch in the table.
    The id granted is then the counter plus one on 32 bits, and the batch
    is emplaced under it. *)
Theorem Acquirelock_granted_iff order reqs st t st' :
  Acquirelock order reqs st = Some (Granted t, st') ↔
  Forall (λ r, isvalidlockrequest r = true) reqs
  ∧ isconflictrequest order reqs = Some false
  ∧ (∀ (p : lockrequest) id batch,
       p ∈ reqs → locktable st !! id = Some batch →
       compatible order p batch)
  ∧ t = (transactionID st + 1) mod 2 ^ 32
  ∧ st' = mklock t (emplace t reqs (locktable st)).
Proof.
  split.
  - intros Hacq.
    assert (Hvalid : forallb isvalidlockrequest reqs = true).
    { unfold Acquirelock in Hacq.
      destruct (forallb isvalidlockrequest reqs); [done|].
      simpl in Hacq. discriminate Hacq. }
    assert (Hself : isconflictrequest order reqs = Some false).
    { unfold Acquirelock in Hacq. rewrite Hvalid in Hacq. simpl in Hacq.
      by destruct (isconflictrequest order reqs) as [[|]|]. }
    assert (Htable : ∀ (p : lockrequest) id batch,
      p ∈ reqs → locktable st !! id = Some batch →
      compatible order p batch).
    { unfold Acquirelock, isconflictwithtable in Hacq.
      rewrite Hvalid, Hself in Hacq. cbn [negb] in Hacq.
      destruct (decide (locktable st = ∅)) as [Hempty|_].
      - intros p id batch _ Hid. rewrite Hempty in Hid.
        by rewrite lookup_empty in Hid.
      - destruct (scantable order reqs (entries (locktable st)))
          as [[[id q]|]|] eqn:Hscan; try discriminate Hacq.
        by apply scantable_entries_none. }
    split.
    { apply Forall_forall. intros r Hr.
      rewrite forallb_forall in Hvalid. apply Hvalid.
      by apply list_elem_of_In. }
    split; [done|]. split; [done|].
    destruct (Acquirelock_cases _ _ _ _ _ Hacq)
      as [[Hr _] | [[Hr _] | [(id & q & Hr & _) | [Hr ->]]]];
      try discriminate Hr.
    by injection Hr as ->.
  - intros (Hvalid & Hself & Htable & -> & ->).
    apply Acquirelock_no_conflict; [|done|].
    + apply forallb_forall. intros r Hr.
      rewrite Forall_forall in Hvalid. apply Hvalid.
      by apply list_elem_of_In.
    + right. by apply scantable_entries_none.
Qed.

(** X9.  When Acquire is rejected with TableConflict(id, held), the state
    is left as it was and the answer names the first conflict the scan
    meets: [held] is a record of the batch stored under [id] and conflicts
    with a record [p] of the request; the request records in front of [p]
    conflict with nothing in the table, [p] conflicts with nothing stored
    under a smaller id, and with no record in front of [held] in its
    batch. *)
Theorem Acquirelock_tableconflict_first order reqs st id
    (held : lockrequest) st' :
  Acquirelock order reqs st = Some (TableConflict id held, st') →
  st' = st
  ∧ ∃ pre (p : lockrequest) post batch bpre bpost,
      reqs = pre ++ p :: post
      ∧ locktable st !! id = Some batch
      ∧ batch = bpre ++ held :: bpost
      ∧ isconflictrecord order p held = Some true
      ∧ (∀ (p' : lockrequest) k other,
           p' ∈ pre → locktable st !! k = Some other →
           compatible order p' other)
      ∧ (∀ k other, k < id → locktable st !! k = Some other →
                    compatible order p other)
      ∧ compatible order p bpre.
Proof.
  intros Hacq.
  assert (Hscan : scantable order reqs (entries (locktable st))
                  = Some (Some (id, held)) ∧ st' = st).
  { unfold Acquirelock, isconflictwithtable, TableConflict in Hacq.
    destruct (negb _); [discriminate Hacq|].
    destruct (isconflictrequest order reqs) as [[|]|];
      try discriminate Hacq.
    simpl in Hacq. destruct (decide (locktable st = ∅)).
    { discriminate Hacq. }
    destruct (scantable order reqs (entries (locktable st)))
      as [[[k x]|]|]; try discriminate Hacq.
    by injection Hacq as -> -> ->. }
  destruct Hscan as [Hscan ->]. split; [done|].
  destruct (scantable_hit _ _ _ _ Hscan)
    as (pre & p & post & -> & Hpre & Hentries).
  destruct (scanentries_hit _ _ _ _ Hentries)
    as (epre & [k batch] & epost & Hes & Hepre & Hbatch).
  destruct (scanbatch_hit _ _ _ _ _ Hbatch)
    as (bpre & q & bpost & Hb & Hhit & Hbpre & Hconf).
  simpl in Hb, Hhit. injection Hhit as <- <-. subst batch.
  exists pre, p, post, (bpre ++ held :: bpost), bpre, bpost.
  repeat split; try done.
  - apply elem_of_entries. rewrite Hes.
    apply elem_of_app. right. by apply elem_of_cons; left.
  - intros p' k b Hp' Hk. rewrite Forall_forall in Hpre.
    specialize (Hpre p' Hp'). rewrite Forall_forall in Hpre.
    apply (Hpre (k, b)). by apply elem_of_entries.
  - intros k b Hlt Hk. apply elem_of_entries in Hk. rewrite Hes in Hk.
    apply elem_of_app in Hk as [Hk|Hk].
    + rewrite Forall_forall in Hepre. by apply (Hepre (k, b)).
    + apply elem_of_cons in Hk as [Hk|Hk]; [injection Hk; lia|].
      pose proof (entries_sorted (locktable st)) as Hsorted.
      rewrite Hes in Hsorted. apply StronglySorted_app_1_r in Hsorted.
      apply StronglySorted_inv in Hsorted as [_ Hle].
      rewrite Forall_forall in Hle. specialize (Hle _ Hk).
      unfold keyle in Hle. simpl in Hle. lia.
Qed.

Lemma Acquirelock_tableconflict_first_witness :
  ∃ pre (p : lockrequest) post batch bpre bpost,
    [dontlock22] = pre ++ p :: post
    ∧ locktable two_held !! 1 = Some batch
    ∧ batch = bpre ++ lockall_write :: bpost
    ∧ isconflictrecord LittleEndian p lockall_write = Some true
    ∧ (∀ (p' : lockrequest) k other,
         p' ∈ pre → locktable two_held !! k = Some other →
         compatible LittleEndian p' other)
    ∧ (∀ k other, k < 1 → locktable two_held !! k = Some other →
                  compatible LittleEndian p other)
    ∧ compatible LittleEndian p bpre.
Proof.
  apply (proj2 (Acquirelock_tableconflict_first LittleEndian [dontlock22]
                  two_held 1 lockall_write two_held
                  ltac:(vm_compute; reflexivity))).
Defined.

(** ** More on the pairwise check *)

Lemma checkbyte_sym order r1 r2 j :
  checkbyte order r1 r2 j = checkbyte order r2 r1 j.
Proof.
  unfold checkbyte.
  destruct (resourcebyte order r1 j) as [x|],
           (resourcebyte order r2 j) as [y|]; try done.
  by rewrite (N.eqb_sym x y).
Qed.

Lemma comparebytes_sym order r1 r2 (n : nat) : ∀ j,
  comparebytes order r1 r2 j n = comparebytes order r2 r1 j n.
Proof.
  induction n as [|n IH]; intros j; simpl; [done|].
  rewrite (checkbyte_sym order r1 r2), IH. done.
Qed.

(** The index into the second record counts from where the loop is. *)
Lemma segmentloop_shift order r1 r2 segs1 : ∀ q segs2 (i : nat),
  segmentloop order r1 r2 segs1 (q :: segs2) (S i)
  = segmentloop order r1 r2 segs1 segs2 i.
Proof.
  induction segs1 as [|p rest IH]; intros q segs2 i; simpl; [done|].
  by rewrite IH.
Qed.

Lemma segmentloop_sym order r1 r2 segs1 : ∀ segs2,
  length segs1 = length segs2 →
  segmentloop order r1 r2 segs1 segs2 0
  = segmentloop order r2 r1 segs2 segs1 0.
Proof.
  induction segs1 as [|p rest IH]; intros [|q rest2] Hlen;
    try discriminate; [done|].
  cbn [segmentloop lookup list_lookup].
  rewrite !segmentloop_shift, (comparebytes_sym order r2 r1).
  rewrite (N.eqb_sym q.2 p.2), (orb_comm (islocksame q.1)).
  destruct (islockall p.1), (islockall q.1); try done.
  destruct ((islocksame p.1 || islocksame q.1) && (p.2 =? q.2)); [done|].
  destruct (N.eqb_spec p.2 q.2) as [Heq|]; [|done]. simpl.
  rewrite Heq, IH; [done|]. simpl in Hlen. lia.
Qed.

(** X10.  For two requests with the same number of segments the pairwise
    check does not depend on the order of its arguments. *)
Theorem isconflictrecord_sym order a b :
  length (segmentinfo a) = length (segmentinfo b) →
  isconflictrecord order a b = isconflictrecord order b a.
Proof.
  intros Hlen. unfold isconflictrecord.
  rewrite (andb_comm (String.eqb (locktype b) "Read")).
  destruct (_ && _); [done|]. by apply segmentloop_sym.
Qed.

Lemma isconflictrecord_sym_witness :
  isconflictrecord BigEndian lockall_write dontlock22_other
  = isconflictrecord BigEndian dontlock22_other lockall_write.
Proof. apply isconflictrecord_sym. reflexivity. Defined.

(** With different numbers of segments the order matters: one way round
    the check is undefined, the other way round it answers. *)
Example isconflictrecord_not_sym :
  isconflictrecord LittleEndian three_segments two_segments = None
  ∧ isconflictrecord LittleEndian two_segments three_segments = Some false.
Proof. split; reflexivity. Qed.

Lemma segmentloop_is_Some order r1 r2 segs1 : ∀ segs2,
  (length segs1 ≤ length segs2)%nat →
  Forall (λ p, p.2 ≤ 8) segs1 →
  is_Some (segmentloop order r1 r2 segs1 segs2 0).
Proof.
  induction segs1 as [|p rest IH]; intros segs2 Hlen Hle; [by eexists|].
  destruct segs2 as [|q rest2]; [simpl in Hlen; lia|].
  apply Forall_cons in Hle as [Hp Hrest].
  cbn [segmentloop lookup list_lookup]. rewrite segmentloop_shift.
  destruct (islockall p.1); [by eexists|].
  destruct (islockall q.1); [by eexists|].
  destruct (_ && _); [by eexists|].
  destruct (negb _); [by eexists|].
  destruct (comparebytes_is_Some order r1 r2 (N.to_nat p.2) 0)
    as [[|] ->]; [lia | | by eexists].
  apply IH; [simpl in Hlen; lia | done].
Qed.

Lemma isconflictrecord_defined order a b :
  (length (segmentinfo a) ≤ length (segmentinfo b))%nat →
  Forall (λ p, p.2 ≤ 8) (segmentinfo a) →
  is_Some (isconflictrecord order a b).
Proof.
  intros Hlen Hle. unfold isconflictrecord.
  destruct (_ && _); [by eexists|]. by apply segmentloop_is_Some.
Qed.

(** X11.  The pairwise check is defined whenever the first request has no
    more segments than the second and none of its segments is longer than
    the eight bytes of a resource id. *)
Theorem isconflictrecord_is_Some order a b :
  (length (segmentinfo a) ≤ length (segmentinfo b))%nat →
  Forall (λ p, p.2 ≤ 8) (segmentinfo a) →
  is_Some (isconflictrecord order a b).
Proof.
  intros Hlen Hle. unfold isconflictrecord.
  destruct (String.eqb (locktype a) "Read"
            && String.eqb (locktype b) "Read"); [by eexists|].
  by apply segmentloop_is_Some.
Qed.

Lemma isconflictrecord_is_Some_witness :
  is_Some (isconflictrecord LittleEndian two_segments three_segments).
Proof.
  apply isconflictrecord_is_Some.
  - simpl. lia.
  - repeat constructor; simpl; lia.
Defined.

(** X12.  Unless both requests are Read, a LockAll segment on either
    side, or a LockSame segment on either side beside a segment of the
    same length, makes the pair conflict when the check gets to its
    position, whatever the resource ids and the later segments hold.  A
    LockAll segment of the first request does so even where the second
    request has no segment left. *)
Theorem isconflictrecord_flag_conflict order a b pre1 pre2 p rest1 :
  ¬ (locktype a = "Read"%string ∧ locktype b = "Read"%string) →
  segmentinfo a = pre1 ++ p :: rest1 →
  Forall2 (indecisive order (resourceid a) (resourceid b)) pre1 pre2 →
  (∀ (k : nat) q, pre2 !! k = Some q → segmentinfo b !! k = Some q) →
  p.1 = "LockAll"%string
  ∨ (∃ q, segmentinfo b !! length pre1 = Some q
          ∧ (q.1 = "LockAll"%string
             ∨ (p.1 = "LockSame"%string ∨ q.1 = "LockSame"%string)
               ∧ p.2 = q.2)) →
  isconflictrecord order a b = Some true.
Proof.
  intros Hread Ha Hpre Hpre2 Hflag. unfold isconflictrecord.
  rewrite (notbothread a b Hread), Ha.
  rewrite (segmentloop_skip order _ _ pre1 pre2); [|done|done].
  simpl. destruct (islockall p.1) eqn:Hpa; [done|].
  destruct Hflag as [Hp | (q & Hq & Hflag)].
  { apply islockall_false in Hpa. done. }
  rewrite Hq. destruct (islockall q.1) eqn:Hqa; [done|].
  destruct Hflag as [Hqall | [Hsame Hlen]].
  { apply islockall_false in Hqa. done. }
  apply N.eqb_eq in Hlen. rewrite Hlen, andb_true_r.
  destruct Hsame as [Hs|Hs]; apply String.eqb_eq in Hs;
    unfold islocksame; rewrite Hs; by rewrite ?orb_true_r.
Qed.

Lemma isconflictrecord_flag_conflict_witness :
  isconflictrecord LittleEndian lockall_third dontlock_third_256
  = Some true.
Proof.
  apply (isconflictrecord_flag_conflict LittleEndian
           lockall_third dontlock_third_256
           [("DontLock"%string, 1); ("DontLock"%string, 1)]
           [("DontLock"%string, 1); ("DontLock"%string, 1)]
           ("LockAll"%string, 1) []).
  - intros [Hr _]. discriminate Hr.
  - reflexivity.
  - repeat constructor; simpl; try discriminate; try lia;
      intros k Hk; assert (k = 0) as -> by lia; reflexivity.
  - intros [|[|k]] q Hq; simpl in Hq; try discriminate;
      injection Hq as <-; reflexivity.
  - by left.
Defined.

Lemma comparebytes_ext order r1 r1' r2 r2' (n : nat) : ∀ j,
  (∀ k, j ≤ k < j + N.of_nat n →
        resourcebyte order r1 k = resourcebyte order r1' k
        ∧ resourcebyte order r2 k = resourcebyte order r2' k) →
  comparebytes order r1 r2 j n = comparebytes order r1' r2' j n.
Proof.
  induction n as [|n IH]; intros j Hagree; simpl; [done|].
  unfold checkbyte. destruct (Hagree j) as [-> ->]; [lia|].
  rewrite (IH (j + 1)); [done|]. intros k Hk. apply Hagree. lia.
Qed.

Lemma segmentloop_ext order r1 r1' r2 r2' segs1 segs2 : ∀ i : nat,
  Forall (λ p, p.2 ≤ 4) segs1 →
  (∀ k, k < 4 →
        resourcebyte order r1 k = resourcebyte order r1' k
        ∧ resourcebyte order r2 k = resourcebyte order r2' k) →
  segmentloop order r1 r2 segs1 segs2 i
  = segmentloop order r1' r2' segs1 segs2 i.
Proof.
  intros i Hle Hagree. revert i.
  induction Hle as [|p rest Hp _ IH]; intros i; simpl; [done|].
  rewrite IH.
  rewrite (comparebytes_ext order r1 r1' r2 r2'); [done|].
  intros k Hk. apply Hagree. lia.
Qed.

Lemma validsegments_le4 segs : ∀ lockflag : Z,
  validsegments segs lockflag = true → Forall (λ p, p.2 ≤ 4) segs.
Proof.
  induction segs as [|p rest IH]; intros c; simpl; [constructor|].
  destruct (negb _); [discriminate|].
  destruct (N.ltb_spec p.2 1); [discriminate|].
  destruct (N.ltb_spec 4 p.2); [discriminate|]. simpl.
  destruct (_ || _).
  - destruct (_ <=? _)%Z; [discriminate|]. intros Hrest.
    constructor; [done | by eapply IH].
  - intros Hrest. constructor; [done | by eapply IH].
Qed.

Lemma isvalidlockrequest_le4 (r : lockrequest) :
  isvalidlockrequest r = true → Forall (λ p, p.2 ≤ 4) (segmentinfo r).
Proof.
  unfold isvalidlockrequest.
  destruct (negb _); [discriminate|]. destruct (_ || _); [discriminate|].
  apply validsegments_le4.
Qed.

(** X13.  For a request that passed validation the pairwise check reads
    the bytes at offsets 0 to 3 of the two resource ids and nothing else
    of them: resource ids that agree on these four bytes cannot be told
    apart, whatever their other four bytes are. *)
Theorem isconflictrecord_low_bytes order a b (ra rb : N) :
  isvalidlockrequest a = true →
  (∀ k, k < 4 → resourcebyte order (resourceid a) k = resourcebyte order ra k) →
  (∀ k, k < 4 → resourcebyte order (resourceid b) k = resourcebyte order rb k) →
  isconflictrecord order (withresourceid a ra) (withresourceid b rb)
  = isconflictrecord order a b.
Proof.
  intros Hvalid Ha Hb. unfold isconflictrecord, withresourceid. simpl.
  destruct (_ && _); [done|]. symmetry.
  apply segmentloop_ext; [by apply isvalidlockrequest_le4|].
  intros k Hk. split; [by apply Ha | by apply Hb].
Qed.

Lemma isconflictrecord_low_bytes_witness :
  isconflictrecord LittleEndian
    (withresourceid dontlock22 (258 + 2 ^ 32))
    (withresourceid dontlock22_other (258 + 2 ^ 40))
  = isconflictrecord LittleEndian dontlock22 dontlock22_other.
Proof.
  apply isconflictrecord_low_bytes.
  - reflexivity.
  - intros k Hk.
    assert (Hcases : k = 0 ∨ k = 1 ∨ k = 2 ∨ k = 3) by lia.
    destruct Hcases as [-> | [-> | [-> | ->]]]; reflexivity.
  - intros k Hk.
    assert (Hcases : k = 0 ∨ k = 1 ∨ k = 2 ∨ k = 3) by lia.
    destruct Hcases as [-> | [-> | [-> | ->]]]; reflexivity.
Defined.

(** ** When Acquire is defined *)

Lemma conflictwithlater_is_Some order (p : lockrequest) later :
  Forall (λ q : lockrequest, is_Some (isconflictrecord order p q)) later →
  is_Some (conflictwithlater order p later).
Proof.
  induction 1 as [|q rest [[|] Hq] _ IH]; simpl; [by eexists|..];
    rewrite Hq; [by eexists | done].
Qed.

Lemma conflictpairs_is_Some order (reqs : list lockrequest) :
  (∀ (i j : nat) (p q : lockrequest),
     (i < j)%nat → reqs !! i = Some p → reqs !! j = Some q →
     is_Some (isconflictrecord order p q)) →
  is_Some (conflictpairs order reqs).
Proof.
  induction reqs as [|r rest IH]; intros Hall; simpl; [by eexists|].
  destruct (conflictwithlater_is_Some order r rest) as [[|] ->].
  - apply Forall_lookup. intros j q Hj.
    apply (Hall O (S j)); [lia | done | done].
  - by eexists.
  - apply IH. intros i j p q Hij Hi Hj.
    apply (Hall (S i) (S j)); [lia | done | done].
Qed.

Lemma scanbatch_is_Some order (p : lockrequest) id batch :
  Forall (λ q : lockrequest, is_Some (isconflictrecord order p q)) batch →
  is_Some (scanbatch order p id batch).
Proof.
  induction 1 as [|q rest [[|] Hq] _ IH]; simpl; [by eexists|..];
    rewrite Hq; [by eexists | done].
Qed.

Lemma scanentries_is_Some order (p : lockrequest)
    (es : list (N * list lockrequest)) :
  Forall (λ e, Forall (λ q : lockrequest,
                         is_Some (isconflictrecord order p q)) e.2) es →
  is_Some (scanentries order p es).
Proof.
  induction 1 as [|e rest He _ IH]; simpl; [by eexists|].
  destruct (scanbatch_is_Some order p e.1 e.2 He) as [[hit|] ->];
    [by eexists | done].
Qed.

Lemma scantable_is_Some order (reqs : list lockrequest)
    (es : list (N * list lockrequest)) :
  Forall (λ p : lockrequest,
            Forall (λ e, Forall (λ q : lockrequest,
                                   is_Some (isconflictrecord order p q))
                                e.2) es) reqs →
  is_Some (scantable order reqs es).
Proof.
  induction 1 as [|p rest Hp _ IH]; simpl; [by eexists|].
  destruct (scanentries_is_Some order p es Hp) as [[hit|] ->];
    [by eexists | done].
Qed.

(** X14.  Acquire is defined (it returns, without indexing any vector
    out of range) whenever no record of the batch has more segments than
    a record after it in the batch or than a record held in the table; so
    it is whenever all records, requested and held, have the same number
    of segments. *)
Theorem Acquirelock_is_Some order reqs st :
  (∀ (i j : nat) (p q : lockrequest),
     (i < j)%nat → reqs !! i = Some p → reqs !! j = Some q →
     (length (segmentinfo p) ≤ length (segmentinfo q))%nat) →
  (∀ (p q : lockrequest) id batch,
     p ∈ reqs → locktable st !! id = Some batch → q ∈ batch →
     (length (segmentinfo p) ≤ length (segmentinfo q))%nat) →
  is_Some (Acquirelock order reqs st).
Proof.
  intros Hself Htable. unfold Acquirelock.
  destruct (forallb isvalidlockrequest reqs) eqn:Hvalid; [|by eexists].
  cbn [negb].
  assert (Hle : ∀ p : lockrequest, p ∈ reqs →
                  Forall (λ s, s.2 ≤ 8) (segmentinfo p)).
  { intros p Hp. rewrite forallb_forall in Hvalid.
    eapply Forall_impl; [apply isvalidlockrequest_le4, Hvalid|].
    - by apply list_elem_of_In.
    - simpl. intros s Hs. lia. }
  assert (Hreq : is_Some (isconflictrequest order reqs)).
  { unfold isconflictrequest. destruct (_ =? _)%nat; [by eexists|].
    apply conflictpairs_is_Some. intros i j p q Hij Hi Hj.
    apply isconflictrecord_defined; [by eapply Hself|].
    apply Hle. by eapply list_elem_of_lookup_2. }
  destruct Hreq as [[|] ->]; [by eexists|].
  unfold isconflictwithtable.
  destruct (decide _); [by eexists|].
  destruct (scantable_is_Some order reqs (entries (locktable st)))
    as [[[id q]|] ->]; try by eexists.
  apply Forall_forall. intros p Hp.
  apply Forall_forall. intros [id batch] He. apply elem_of_entries in He.
  apply Forall_forall. intros q Hq. simpl in Hq.
  apply isconflictrecord_defined; [by eapply Htable | by apply Hle].
Qed.

Lemma Acquirelock_is_Some_witness :
  is_Some (Acquirelock LittleEndian [dontlock22; dontlock22_other] two_held).
Proof.
  apply Acquirelock_is_Some.
  - intros [|[|i]] [|[|j]] p q Hij Hi Hj; simpl in Hi, Hj;
      try discriminate; try lia.
    injection Hi as <-. injection Hj as <-. simpl. lia.
  - intros p q id batch Hp Hid Hq.
    assert (Hp2 : length (segmentinfo p) = 2%nat).
    { apply elem_of_cons in Hp as [->|Hp]; [done|].
      apply elem_of_cons in Hp as [->|Hp]; [done|].
      by apply elem_of_nil in Hp. }
    assert (Hq2 : length (segmentinfo q) = 2%nat).
    { unfold two_held in Hid. simpl in Hid.
      destruct (decide (id = 2)) as [->|Hne2].
      - rewrite lookup_insert_eq in Hid. injection Hid as <-.
        apply elem_of_cons in Hq as [->|Hq]; [done|].
        by apply elem_of_nil in Hq.
      - rewrite lookup_insert_ne in Hid by done.
        destruct (decide (id = 1)) as [->|Hne1].
        + rewrite lookup_singleton_eq in Hid. injection Hid as <-.
          apply elem_of_cons in Hq as [->|Hq]; [done|].
          by apply elem_of_nil in Hq.
        + by rewrite lookup_singleton_ne in Hid. }
    lia.
Defined.

(** ** What holds in every state the lock object can reach *)

Lemma Acquirelock_granted_valid order reqs st t st' :
  Acquirelock order reqs st = Some (Granted t, st') →
  Forall (λ r, isvalidlockrequest r = true) reqs.
Proof.
  unfold Acquirelock.
  destruct (forallb isvalidlockrequest reqs) eqn:Hvalid;
    [|discriminate].
  intros _. apply Forall_forall. intros r Hr.
  rewrite forallb_forall in Hvalid. apply Hvalid.
  by apply list_elem_of_In.
Qed.

(** A call keeps the table free of records that fail validation. *)
Lemma serve_valid order o st r st' :
  serve order o st = Some (r, st') →
  (∀ id batch, locktable st !! id = Some batch →
               Forall (λ r, isvalidlockrequest r = true) batch) →
  ∀ id batch, locktable st' !! id = Some batch →
              Forall (λ r, isvalidlockrequest r = true) batch.
Proof.
  intros Hserve Hinv id batch.
  destruct o as [reqs | p ids]; simpl in Hserve.
  - destruct (Acquirelock order reqs st) as [[ra st1]|] eqn:Hacq;
      [|discriminate]. injection Hserve as <- <-.
    destruct (Acquirelock_cases _ _ _ _ _ Hacq)
      as [[_ ->] | [[_ ->] | [(k & q & _ & ->) | [Hr Hst]]]];
      try apply Hinv.
    subst ra. pose proof (Acquirelock_granted_valid _ _ _ _ _ Hacq).
    subst st1. simpl. rewrite emplace_lookup.
    destruct (locktable st !! id) as [old|] eqn:Hold.
    + intros [= <-]. by eapply Hinv.
    + destruct (decide _); [by intros [= <-] | discriminate].
  - destruct (Releaselock p ids st) as [[rr st1]|] eqn:Hrel;
      [|discriminate]. injection Hserve as <- <-.
    destruct (Releaselock_cases _ _ _ _ _ Hrel)
      as [[_ ->] | [(k & q & _ & ->) | (x & _ & ->)]]; try apply Hinv.
    simpl. rewrite lookup_releaselock.
    destruct (decide _); [discriminate | apply Hinv].
Qed.

(** X15.  Whatever sequence of Acquire and Release calls a fresh lock
    object has served, every record held in its table passes
    validation. *)
Theorem reachable_table_valid order (ops : list request) id batch :
  locktable (finalstate order ops newlock) !! id = Some batch →
  Forall (λ r, isvalidlockrequest r = true) batch.
Proof.
  assert (Hgen : ∀ st,
    (∀ id batch, locktable st !! id = Some batch →
                 Forall (λ r, isvalidlockrequest r = true) batch) →
    ∀ id batch, locktable (finalstate order ops st) !! id = Some batch →
                Forall (λ r, isvalidlockrequest r = true) batch).
  { induction ops as [|o rest IH]; intros st Hinv; [done|]. simpl.
    destruct (serve order o st) as [[r st']|] eqn:Hserve; [|done].
    apply IH. by eapply serve_valid. }
  apply Hgen. intros k b Hk. simpl in Hk. by rewrite lookup_empty in Hk.
Qed.

Lemma reachable_table_valid_witness :
  Forall (λ r, isvalidlockrequest r = true) [lockall_write].
Proof.
  apply (reachable_table_valid LittleEndian
           [Acquire [unknown_flag]; Acquire [lockall_write];
            Acquire [dontlock22]] 1).
  vm_compute. reflexivity.
Defined.

(** A call keeps the keys of the table between 1 and the counter, as
    long as the counter does not wrap. *)
Lemma serve_keys order o st r st' :
  serve order o st = Some (r, st') →
  transactionID st + 1 < 2 ^ 32 →
  (∀ k, is_Some (locktable st !! k) → 1 ≤ k ≤ transactionID st) →
  (∀ k, is_Some (locktable st' !! k) → 1 ≤ k ≤ transactionID st')
  ∧ (grantedid r = None ∧ transactionID st' = transactionID st
     ∨ grantedid r = Some (transactionID st + 1)
       ∧ transactionID st' = transactionID st + 1).
Proof.
  intros Hserve Hbound Hinv.
  assert (Hmod : (transactionID st + 1) mod 2 ^ 32 = transactionID st + 1)
    by (by apply N.mod_small).
  destruct o as [reqs | p ids]; simpl in Hserve.
  - destruct (Acquirelock order reqs st) as [[ra st1]|] eqn:Hacq;
      [|discriminate]. injection Hserve as <- <-.
    destruct (Acquirelock_cases _ _ _ _ _ Hacq)
      as [[-> ->] | [[-> ->] | [(k & q & -> & ->) | [-> ->]]]];
      try (split; [done | by left]).
    rewrite Hmod. split; [|by right].
    simpl. intros k. rewrite emplace_lookup.
    destruct (locktable st !! k) as [old|] eqn:Hold.
    + intros _. destruct (Hinv k); [by rewrite Hold|]. lia.
    + destruct (decide _) as [->|]; [lia | by intros [? ?]].
  - destruct (Releaselock p ids st) as [[rr st1]|] eqn:Hrel;
      [|discriminate]. injection Hserve as <- <-.
    split; [|left; split; [done|]];
      destruct (Releaselock_cases _ _ _ _ _ Hrel)
        as [[_ ->] | [(k & q & _ & ->) | (x & _ & ->)]]; try done.
    simpl. intros k. rewrite lookup_releaselock.
    destruct (decide _); [by intros [? ?] | apply Hinv].
Qed.

Lemma finalstate_keys order (ops : list request) : ∀ st,
  transactionID st + N.of_nat (length (issued (run order ops st))) < 2 ^ 32 →
  (∀ k, is_Some (locktable st !! k) → 1 ≤ k ≤ transactionID st) →
  transactionID (finalstate order ops st)
  = transactionID st + N.of_nat (length (issued (run order ops st)))
  ∧ ∀ k, is_Some (locktable (finalstate order ops st) !! k) →
         1 ≤ k ≤ transactionID (finalstate order ops st).
Proof.
  induction ops as [|o rest IH]; intros st Hbound Hinv.
  - simpl. split; [lia | done].
  - cbn [run finalstate] in *.
    destruct (serve order o st) as [[r st']|] eqn:Hserve;
      [|simpl; split; [lia | done]].
    unfold issued in Hbound |- *. cbn [omap list_omap] in Hbound |- *.
    fold (issued (run order rest st')) in Hbound |- *.
    destruct (grantedid r) as [t|] eqn:Hgranted.
    + cbn [length] in Hbound |- *.
      destruct (serve_keys _ _ _ _ _ Hserve) as [Hinv' [[Hg _]|[_ Hc]]];
        [lia | done | congruence |].
      destruct (IH st') as [Hfinal Hkeys]; [lia | done |].
      split; [lia | done].
    + destruct (decide (transactionID st + 1 < 2 ^ 32)) as [Hlt|Hge].
      * destruct (serve_keys _ _ _ _ _ Hserve) as [Hinv' [[_ Hc]|[Hg _]]];
          [done | done | | congruence].
        destruct (IH st') as [Hfinal Hkeys]; [lia | done |].
        split; [lia | done].
      * destruct (serve_counter _ _ _ _ _ Hserve) as [[_ Hc]|[Hg _]];
          [|congruence].
        assert (Hzero : length (issued (run order rest st')) = O) by lia.
        assert (Hsame : ∀ k, is_Some (locktable st' !! k) →
                             1 ≤ k ≤ transactionID st').
        { rewrite Hc. intros k Hk. apply Hinv.
          destruct o as [reqs | p ids]; simpl in Hserve.
          - destruct (Acquirelock order reqs st) as [[ra st1]|] eqn:Hacq;
              [|discriminate]. injection Hserve as <- <-.
            destruct (Acquirelock_cases _ _ _ _ _ Hacq)
              as [[_ ->] | [[_ ->] | [(k' & q & _ & ->) | [-> _]]]];
              try done.
          - destruct (Releaselock p ids st) as [[rr st1]|] eqn:Hrel;
              [|discriminate]. injection Hserve as <- <-.
            destruct (Releaselock_cases _ _ _ _ _ Hrel)
              as [[_ ->] | [(k' & q & _ & ->) | (x & _ & ->)]];
              try done.
            simpl in Hk. rewrite lookup_releaselock in Hk.
            by destruct (decide _); [destruct Hk|]. }
        destruct (IH st') as [Hfinal Hkeys]; [lia | done |].
        split; [lia | done].
Qed.

(** X16.  While fewer than 2^32 transaction ids have been issued, the
    counter of a lock object equals the number of ids it has issued, and
    every key of its table is one of the issued ids: it lies between 1
    and the counter. *)
Theorem reachable_keys order (ops : list request) :
  N.of_nat (length (issued (run order ops newlock))) < 2 ^ 32 →
  transactionID (finalstate order ops newlock)
  = N.of_nat (length (issued (run order ops newlock)))
  ∧ ∀ k, is_Some (locktable (finalstate order ops newlock) !! k) →
         1 ≤ k ≤ N.of_nat (length (issued (run order ops newlock))).
Proof.
  intros Hbound.
  destruct (finalstate_keys order ops newlock) as [Hc Hkeys].
  - simpl. lia.
  - simpl. intros k [x Hx]. by rewrite lookup_empty in Hx.
  - simpl in Hc. rewrite N.add_0_l in Hc. split; [done|].
    intros k Hk. rewrite <- Hc. by apply Hkeys.
Qed.

Lemma reachable_keys_witness :
  transactionID
    (finalstate LittleEndian
       [Acquire [dontlock22]; Acquire []; Release [1] ("console"%string,
                                                       "session"%string)]
       newlock)
  = 2.
Proof.
  refine (proj1 (reachable_keys LittleEndian _ _)).
  vm_compute. reflexivity.
Defined.

(** X17.  While fewer than 2^32 - 1 transaction ids have been issued, an
    Acquire that is granted really stores its batch: the id it returns is
    the number of ids issued so far plus one, was not a key of the table,
    and holds the batch afterwards. *)
Theorem reachable_grant_stored order (ops : list request) reqs t st' :
  N.of_nat (length (issued (run order ops newlock))) + 1 < 2 ^ 32 →
  Acquirelock order reqs (finalstate order ops newlock)
  = Some (Granted t, st') →
  t = N.of_nat (length (issued (run order ops newlock))) + 1
  ∧ locktable (finalstate order ops newlock) !! t = None
  ∧ locktable st' !! t = Some reqs.
Proof.
  intros Hbound Hacq.
  destruct (finalstate_keys order ops newlock) as [Hc Hkeys].
  { simpl. lia. }
  { simpl. intros k [x Hx]. by rewrite lookup_empty in Hx. }
  simpl in Hc. rewrite N.add_0_l in Hc.
  assert (Ht : t = N.of_nat (length (issued (run order ops newlock))) + 1).
  { destruct (Acquirelock_cases _ _ _ _ _ Hacq)
      as [[Hr _] | [[Hr _] | [(id & q & Hr & _) | [Hr _]]]];
      try discriminate Hr.
    injection Hr as ->. rewrite Hc. apply N.mod_small. lia. }
  assert (Hfresh : locktable (finalstate order ops newlock) !! t = None).
  { destruct (locktable (finalstate order ops newlock) !! t) eqn:Hl;
      [|done].
    destruct (Hkeys t); [by rewrite Hl | lia]. }
  repeat split; try done.
  by apply (Acquirelock_granted_entry order reqs
              (finalstate order ops newlock) t).
Qed.

Lemma reachable_grant_stored_witness :
  ∃ st', Acquirelock LittleEndian [dontlock22]
           (finalstate LittleEndian [Acquire []] newlock)
         = Some (Granted 2, st')
         ∧ locktable st' !! 2 = Some [dontlock22].
Proof.
  eexists. split; [vm_compute; reflexivity|].
  apply (reachable_grant_stored LittleEndian [Acquire []] [dontlock22] 2).
  - vm_compute. reflexivity.
  - vm_compute. reflexivity.
Defined.

(** X18.  Acquire followed by Release is a round trip on the table: when
    a batch is granted under an id that was not in use, Release of that
    id by the console and session on the batch's first record returns
    Released and leaves the table exactly as it was before the Acquire;
    only the counter has moved on. *)
Theorem Acquirelock_Releaselock_roundtrip order first rest st t st1 :
  Acquirelock order (first :: rest) st = Some (Granted t, st1) →
  locktable st !! t = None →
  ∃ st2,
    Releaselock [t] (hmcid first, sessionid first) st1
    = Some (Released, st2)
    ∧ locktable st2 = locktable st
    ∧ transactionID st2 = t.
Proof.
  intros Hacq Hfresh.
  destruct (Acquirelock_then_Releaselock _ _ _ _ _ _ Hacq Hfresh)
    as (st2 & Hrel & Htable & _).
  exists st2. repeat split; try done.
  destruct (Releaselock_cases _ _ _ _ _ Hrel)
    as [[Hr _] | [(id & q & Hr & _) | (x & _ & ->)]];
    try discriminate Hr.
  destruct (Acquirelock_cases _ _ _ _ _ Hacq)
    as [[Hr _] | [[Hr _] | [(id & q & Hr & _) | [Hr ->]]]];
    try discriminate Hr.
  by injection Hr as ->.
Qed.

Lemma Acquirelock_Releaselock_roundtrip_witness :
  ∃ st1 st2,
    Acquirelock LittleEndian [dontlock22] newlock = Some (Granted 1, st1)
    ∧ Releaselock [1] ("console"%string, "session"%string) st1
      = Some (Released, st2)
    ∧ locktable st2 = ∅.
Proof.
  eexists.
  destruct (Acquirelock_Releaselock_roundtrip LittleEndian dontlock22 []
              newlock 1 _ ltac:(vm_compute; reflexivity) eq_refl)
    as (st2 & Hrel & Htable & _).
  exists st2. split; [reflexivity|]. split; [exact Hrel | exact Htable].
Defined.

(** ** Read locks *)

Lemma isconflictrecord_read order a b :
  locktype a = "Read"%string → locktype b = "Read"%string →
  isconflictrecord order a b = Some false.
Proof. intros Ha Hb. unfold isconflictrecord. by rewrite Ha, Hb. Qed.

(** X19.  Read locks are shared: a batch of Read requests that pass
    validation is granted whenever every record held in the table is a
    Read request, whatever the segments, flags and resource ids are, and
    however many segments each record has. *)
Theorem Acquirelock_read_shared order reqs st :
  Forall (λ r, isvalidlockrequest r = true
               ∧ locktype r = "Read"%string) reqs →
  (∀ id batch (q : lockrequest),
     locktable st !! id = Some batch → q ∈ batch →
     locktype q = "Read"%string) →
  Acquirelock order reqs st
  = Some (Granted ((transactionID st + 1) mod 2 ^ 32),
          mklock ((transactionID st + 1) mod 2 ^ 32)
                 (emplace ((transactionID st + 1) mod 2 ^ 32) reqs
                    (locktable st))).
Proof.
  intros Hreqs Htable. rewrite Forall_forall in Hreqs.
  apply Acquirelock_no_conflict.
  - apply forallb_forall. intros r Hr. apply Hreqs.
    by apply list_elem_of_In.
  - unfold isconflictrequest. destruct (_ =? _)%nat; [done|].
    apply conflictpairs_false. intros i j p q _ Hi Hj.
    apply isconflictrecord_read.
    + apply Hreqs. by eapply list_elem_of_lookup_2.
    + apply Hreqs. by eapply list_elem_of_lookup_2.
  - right. apply scantable_entries_none. intros p id batch Hp Hid.
    apply Forall_forall. intros q Hq.
    apply isconflictrecord_read; [by apply Hreqs | by eapply Htable].
Qed.

Lemma Acquirelock_read_shared_witness :
  Acquirelock BigEndian [read_lockall; read_lockall] read_held
  = Some (Granted 2,
          mklock 2 (emplace 2 [read_lockall; read_lockall]
                      (locktable read_held))).
Proof.
  apply (Acquirelock_read_shared BigEndian [read_lockall; read_lockall]
           read_held).
  - repeat constructor.
  - intros id batch q Hid Hq. simpl in Hid.
    destruct (decide (id = 1)) as [->|Hne].
    + rewrite lookup_singleton_eq in Hid. injection Hid as <-.
      apply elem_of_cons in Hq as [->|Hq]; [done|].
      by apply elem_of_nil in Hq.
    + by rewrite lookup_singleton_ne in Hid.
Defined.

(** ** Edges of the table operations *)

(** X20.  When the id the counter allocates is already a key of the table
    (which takes a wrapped counter), a granted batch is not stored: Acquire
    returns Granted with that id and leaves the table as it was, so the id
    keeps naming the batch held before. *)
Theorem Acquirelock_granted_collision order reqs st t st' :
  Acquirelock order reqs st = Some (Granted t, st') →
  is_Some (locktable st !! t) →
  locktable st' = locktable st.
Proof.
  intros Hacq [old Hold].
  destruct (Acquirelock_cases _ _ _ _ _ Hacq)
    as [[Hr _] | [[Hr _] | [(id & q & Hr & _) | [Hr ->]]]];
    try discriminate Hr.
  injection Hr as ->. simpl. unfold emplace. by rewrite Hold.
Qed.

Lemma Acquirelock_granted_collision_witness :
  ∃ st', Acquirelock LittleEndian [read_lockall; read_lockall] wrapped_held
         = Some (Granted 1, st')
         ∧ locktable st' = {[1 := [read_lockall]]}.
Proof.
  eexists. split; [vm_compute; reflexivity|].
  apply (Acquirelock_granted_collision LittleEndian
           [read_lockall; read_lockall] wrapped_held 1).
  - vm_compute. reflexivity.
  - vm_compute. by eexists.
Defined.

Lemma isitmylock_None (p : list N) (ids : string * string)
    (table : gmap N (list lockrequest)) :
  isitmylock p ids table = None →
  ∃ id, id ∈ p ∧ (table !! id = None ∨ table !! id = Some []).
Proof.
  induction p as [|id rest IH]; simpl; [discriminate|].
  destruct (table !! id) as [[|first more]|] eqn:Hid.
  - intros _. exists id. split; [by apply elem_of_cons; left | by right].
  - destruct (_ && _); [|discriminate]. intros Hrest.
    destruct (IH Hrest) as (k & Hk & Hcase).
    exists k. split; [by apply elem_of_cons; right | done].
  - intros _. exists id. split; [by apply elem_of_cons; left | by left].
Qed.

(** X21.  Release is undefined only if one of the named ids holds a batch
    without records (whose first record the ownership check would read);
    on a table without empty batches every Release returns. *)
Theorem Releaselock_None (p : list N) ids st :
  Releaselock p ids st = None →
  ∃ id, id ∈ p ∧ locktable st !! id = Some [].
Proof.
  unfold Releaselock.
  destruct (validaterids p (locktable st)) eqn:Hv; simpl; [|discriminate].
  destruct (isitmylock p (ids.1, ids.2) (locktable st)) eqn:Hmine;
    [discriminate|].
  intros _. destruct (isitmylock_None _ _ _ Hmine) as (id & Hid & Hcase).
  exists id. split; [done|]. destruct Hcase as [Hnone|Hnil]; [|done].
  destruct (proj1 (validaterids_true _ _) Hv id Hid) as [x Hx].
  congruence.
Qed.

Lemma Releaselock_None_witness :
  ∃ id, id ∈ [1] ∧ locktable (mklock 1 {[1 := []]}) !! id = Some [].
Proof.
  apply (Releaselock_None [1] ("console"%string, "session"%string)).
  reflexivity.
Defined.

(** ** Acquire of an empty batch *)

(** Acquires of empty batches move the counter on and keep what the table
    holds. *)
Lemma finalstate_replicate_empty order (n : nat) : ∀ st,
  transactionID st < 2 ^ 32 →
  transactionID (finalstate order (replicate n (Acquire [])) st)
  = (transactionID st + N.of_nat n) mod 2 ^ 32
  ∧ ∀ k batch, locktable st !! k = Some batch →
               locktable (finalstate order (replicate n (Acquire [])) st)
               !! k = Some batch.
Proof.
  induction n as [|n IH]; intros st Hlt.
  - simpl. split; [|done]. rewrite N.add_0_r. by rewrite N.mod_small.
  - cbn [replicate finalstate serve]. rewrite Acquirelock_nil.
    destruct (IH (mklock ((transactionID st + 1) mod 2 ^ 32)
                    (emplace ((transactionID st + 1) mod 2 ^ 32) []
                       (locktable st)))) as [Hc Hkeep].
    { simpl. by apply N.mod_lt. }
    split.
    + rewrite Hc. simpl. rewrite N.Div0.add_mod_idemp_l. f_equal. lia.
    + intros k batch Hk. apply Hkeep. simpl.
      by rewrite emplace_lookup, Hk.
Qed.

(** C10, as amended.  Acquire of an empty batch is never rejected: in
    every state it returns Granted with the id the counter allocates (the
    counter plus one, on 32 bits) and emplaces an empty batch under that
    id.  The empty entry is in the table afterwards when the id was not a
    key already, and the table is left as it was when it was one.  On a
    lock object that started fresh and has issued fewer than 2^32 - 1 ids
    the allocated id is never a key already, so the empty entry is
    inserted. *)
Theorem Acquirelock_empty_batch order :
  (∀ st, ∃ id st',
     Acquirelock order [] st = Some (Granted id, st')
     ∧ id = (transactionID st + 1) mod 2 ^ 32
     ∧ transactionID st' = id
     ∧ locktable st' = emplace id [] (locktable st)
     ∧ (locktable st !! id = None → locktable st' !! id = Some [])
     ∧ (is_Some (locktable st !! id) → locktable st' = locktable st))
  ∧ (∀ ops : list request,
       N.of_nat (length (issued (run order ops newlock))) + 1 < 2 ^ 32 →
       ∃ st',
         Acquirelock order [] (finalstate order ops newlock)
         = Some (Granted (N.of_nat (length (issued (run order ops newlock)))
                          + 1), st')
         ∧ locktable (finalstate order ops newlock)
           !! (N.of_nat (length (issued (run order ops newlock))) + 1)
           = None
         ∧ locktable st'
           !! (N.of_nat (length (issued (run order ops newlock))) + 1)
           = Some []).
Proof.
  split.
  - intros st. eexists _, _. split; [apply Acquirelock_nil|].
    repeat split; simpl.
    + apply emplace_fresh.
    + intros [old Hold]. unfold emplace. by rewrite Hold.
  - intros ops Hbound.
    destruct (finalstate_keys order ops newlock) as [Hc Hkeys].
    { simpl. lia. }
    { simpl. intros k [x Hx]. by rewrite lookup_empty in Hx. }
    simpl in Hc. rewrite N.add_0_l in Hc.
    assert (Hfresh : locktable (finalstate order ops newlock)
                     !! (N.of_nat (length (issued (run order ops newlock)))
                         + 1) = None).
    { destruct (locktable (finalstate order ops newlock)
                !! (N.of_nat (length (issued (run order ops newlock))) + 1))
        eqn:Hl; [|done].
      destruct (Hkeys (N.of_nat (length (issued (run order ops newlock)))
                       + 1)); [by rewrite Hl | lia]. }
    eexists. rewrite Acquirelock_nil, Hc.
    rewrite (N.mod_small _ _ Hbound).
    split; [reflexivity|]. split; [done|].
    simpl. by apply emplace_fresh.
Qed.

Lemma Acquirelock_empty_batch_witness :
  (∃ st', Acquirelock LittleEndian [] wrapped_held = Some (Granted 1, st')
          ∧ locktable st' = locktable wrapped_held)
  ∧ (∃ st', Acquirelock LittleEndian []
              (finalstate LittleEndian [Acquire [dontlock22]] newlock)
            = Some (Granted 2, st')
            ∧ locktable st' !! 2 = Some []).
Proof.
  split.
  - destruct (proj1 (Acquirelock_empty_batch LittleEndian) wrapped_held)
      as (id & st' & Hacq & Hid & _ & _ & _ & Hkept).
    simpl in Hid. subst id. exists st'. split; [exact Hacq|].
    apply Hkept. vm_compute. by eexists.
  - destruct (proj2 (Acquirelock_empty_batch LittleEndian)
                [Acquire [dontlock22]])
      as (st' & Hacq & _ & Hentry).
    { vm_compute. reflexivity. }
    exists st'. split; [exact Hacq | exact Hentry].
Defined.

(** After 2^32 - 1 further Acquires of an empty batch the counter is back
    at 0 while id 1 still holds [read_lockall]. *)
Lemma empty_batch_onto_held_id order (n : nat) :
  N.of_nat n = 4294967295 →
  ∀ id st',
    Acquirelock order []
      (finalstate order (Acquire [read_lockall]
                         :: replicate n (Acquire [])) newlock)
    = Some (Granted id, st') →
    locktable st' !! id = Some [read_lockall].
Proof.
  intros Hn id st'. cbn [finalstate serve].
  assert (Hfirst : Acquirelock order [read_lockall] newlock
                   = Some (Granted 1, mklock 1 {[1 := [read_lockall]]})).
  { rewrite Acquirelock_no_conflict; [done | done | done | by left]. }
  rewrite Hfirst.
  destruct (finalstate_replicate_empty order n
              (mklock 1 {[1 := [read_lockall]]})) as [Hc Hkeep].
  { simpl. lia. }
  rewrite Acquirelock_nil, Hc. simpl transactionID.
  replace (1 + N.of_nat n) with 4294967296 by lia.
  change (4294967296 `mod` 2 ^ 32) with 0.
  change ((0 + 1) `mod` 2 ^ 32) with 1.
  intros [= <- <-]. simpl. rewrite emplace_lookup.
  rewrite (Hkeep 1 [read_lockall]); [done|].
  simpl. apply lookup_singleton_eq.
Qed.

(** C10 as stated fails: on a lock object that has served an Acquire of a
    Read request and then 2^32 - 1 Acquires of an empty batch, one more
    Acquire of an empty batch is granted under id 1, which is not fresh,
    and no empty entry is inserted: id 1 still holds the Read request. *)
Lemma Acquirelock_empty_batch_not_always_inserted :
  ¬ (∀ order (ops : list request),
       ∃ id st',
         Acquirelock order [] (finalstate order ops newlock)
         = Some (Granted id, st')
         ∧ locktable st' !! id = Some []).
Proof.
  intros Hall.
  destruct (Hall LittleEndian
              (Acquire [read_lockall]
               :: replicate (N.to_nat 4294967295) (Acquire [])))
    as (id & st' & Hacq & Hentry).
  pose proof (empty_batch_onto_held_id LittleEndian
                (N.to_nat 4294967295) (N2Nat.id 4294967295)
                id st' Hacq) as Hheld.
  rewrite Hheld in Hentry. discriminate Hentry.
Qed.
